(** * scripts/fix_doc_backticks.py: backticks around identifiers in doc comments

    A shallow embedding of the script and the properties its specification
    states.  Python strings are sequences of Unicode code points, so a
    character is a code point ([N]) and a string a list of them.  The three
    patterns of [fix_doc_line] are kept as regular-expression syntax trees
    and run by a backtracking matcher that follows the order in which
    Python's [re] module tries the alternatives (greedy repetition first,
    left alternative first); [re.sub] is the left-to-right scan for
    non-overlapping matches. *)

From Stdlib Require Import NArith Ascii String DecimalString.
From stdpp Require Import gmap strings list.

Open Scope N_scope.
Open Scope list_scope.

(** ** Characters and strings *)

Abbreviation char := N.
Abbreviation str := (list N).

(** An ASCII literal of the development as a Python string. *)
Fixpoint of_string (s : string) : str :=
  match s with
  | EmptyString => []
  | String a s' => N_of_ascii a :: of_string s'
  end.

Definition ch (a : ascii) : char := N_of_ascii a.

Definition btick : char := 96.   (* ` *)
Definition LF : char := 10.
Definition CR : char := 13.

(** [str.isspace] on one character, which is also what [\s] matches in a
    [str] pattern: CPython's [Py_UNICODE_ISSPACE]. *)
Definition isspace (c : char) : bool :=
  ((9 <=? c) && (c <=? 13))
  || ((28 <=? c) && (c <=? 32))
  || (c =? 133) || (c =? 160) || (c =? 5760)
  || ((8192 <=? c) && (c <=? 8202))
  || (c =? 8232) || (c =? 8233) || (c =? 8239) || (c =? 8287) || (c =? 12288).

(** [str.lstrip()] with no argument: drop the leading whitespace. *)
Fixpoint lstrip (s : str) : str :=
  match s with
  | [] => []
  | c :: s' => if isspace c then lstrip s' else s
  end.

(** [s.startswith(p)]. *)
Fixpoint startswith (s p : str) : bool :=
  match p, s with
  | [], _ => true
  | _ :: _, [] => false
  | a :: p', c :: s' => (c =? a) && startswith s' p'
  end.

(** ** Regular expressions (the fragment of [re] the script uses) *)

(** One item of a character class. *)
Inductive citem : Type :=
| CRange (lo hi : char)     (* a-z *)
| CChar (c : char)          (* one character *)
| CSpace.                   (* \s *)

Definition in_citem (c : char) (i : citem) : bool :=
  match i with
  | CRange lo hi => (lo <=? c) && (c <=? hi)
  | CChar a => c =? a
  | CSpace => isspace c
  end.

(** A class is the list of its items: [c] is in it when one item accepts it. *)
Definition in_class (cs : list citem) (c : char) : bool :=
  existsb (in_citem c) cs.

Inductive regex : Type :=
| RSet (cs : list citem)            (* [...], an escape, or a literal *)
| RStar (cs : list citem)           (* [...]*  greedy *)
| RPlus (cs : list citem)           (* [...]+  greedy *)
| RCat (r1 r2 : regex)              (* r1 r2 *)
| RAlt (r1 r2 : regex)              (* r1|r2 *)
| RGroup (n : nat) (r : regex).     (* ( r ), the n-th capturing group *)

(** Captured groups, by number. *)
Abbreviation groups := (gmap nat str).

(** Greedy repetition of a class: take as many characters as possible and
    give them back one by one while the rest of the pattern fails. *)
Fixpoint star_greedy {A} (p : char -> bool) (s : str) (k : str -> option A)
  : option A :=
  match s with
  | c :: s' =>
      if p c then
        match star_greedy p s' k with
        | Some x => Some x
        | None => k s
        end
      else k s
  | [] => k s
  end.

(** The backtracking matcher, in continuation-passing style: [rmatch r s g k]
    matches [r] at the start of [s] and hands what is left of [s] and the
    groups to [k]; when [k] fails the next way of matching [r] is tried. *)
Fixpoint rmatch {A} (r : regex) (s : str) (g : groups)
  (k : str -> groups -> option A) : option A :=
  match r with
  | RSet cs =>
      match s with
      | c :: s' => if in_class cs c then k s' g else None
      | [] => None
      end
  | RStar cs => star_greedy (in_class cs) s (fun s' => k s' g)
  | RPlus cs =>
      match s with
      | c :: s' =>
          if in_class cs c
          then star_greedy (in_class cs) s' (fun s'' => k s'' g)
          else None
      | [] => None
      end
  | RCat r1 r2 => rmatch r1 s g (fun s' g' => rmatch r2 s' g' k)
  | RAlt r1 r2 =>
      match rmatch r1 s g k with
      | Some x => Some x
      | None => rmatch r2 s g k
      end
  | RGroup n r =>
      rmatch r s g
        (fun s' g' => k s' (<[n := take (length s - length s') s]> g'))
  end.

(** [pattern.match] at the start of [s]: the groups and the unmatched rest. *)
Definition re_match (r : regex) (s : str) : option (groups * str) :=
  rmatch r s ∅ (fun s' g => Some (g, s')).

(** ** [re.sub] *)

(** A replacement template: literal text and group references [\n]. *)
Inductive titem : Type :=
| TLit (s : str)
| TGroup (n : nat).

Definition expand_item (g : groups) (t : titem) : str :=
  match t with
  | TLit s => s
  | TGroup n => default [] (g !! n)
  end.

Definition expand (repl : list titem) (g : groups) : str :=
  flat_map (expand_item g) repl.

(** What the scan makes of the subject: characters copied as they are, and
    matches (the matched text and its groups). *)
Inductive seg : Type :=
| SLit (c : char)
| SMatch (m : str) (g : groups).

(** The scan of [re.sub] and [re.finditer]: at each position try the pattern;
    after a match go on behind it ([skip] counts the characters of the
    current match still to pass), else copy one character.  An empty match
    is replaced and the character after it copied, as Python 3.7 does. *)
Fixpoint scan (r : regex) (skip : nat) (s : str) : list seg :=
  match s with
  | [] =>
      match skip, re_match r [] with
      | O, Some (g, _) => [SMatch [] g]
      | _, _ => []
      end
  | c :: s' =>
      match skip with
      | S n => scan r n s'
      | O =>
          match re_match r s with
          | Some (g, rest) =>
              let n := (length s - length rest)%nat in
              match n with
              | O => SMatch [] g :: SLit c :: scan r 0 s'
              | S n' => SMatch (take n s) g :: scan r n' s'
              end
          | None => SLit c :: scan r 0 s'
          end
      end
  end.

Definition render (repl : list titem) (x : seg) : str :=
  match x with
  | SLit c => [c]
  | SMatch _ g => expand repl g
  end.

(** The text a segment stands for in the subject. *)
Definition raw (x : seg) : str :=
  match x with
  | SLit c => [c]
  | SMatch m _ => m
  end.

Definition re_sub (r : regex) (repl : list titem) (s : str) : str :=
  flat_map (render repl) (scan r 0 s).

(** ** The patterns of [fix_doc_line] *)

Definition lower : citem := CRange (ch "a") (ch "z").
Definition upper : citem := CRange (ch "A") (ch "Z").
Definition digit : citem := CRange (ch "0") (ch "9").
Definition uscore : citem := CChar (ch "_").

(** pattern1: [(\s)([a-zA-Z_][a-zA-Z0-9_]*\(\))(\s)]. *)
Definition pattern1 : regex :=
  RCat (RGroup 1 (RSet [CSpace]))
    (RCat (RGroup 2
             (RCat (RSet [lower; upper; uscore])
                (RCat (RStar [lower; upper; digit; uscore])
                   (RCat (RSet [CChar (ch "(")]) (RSet [CChar (ch ")")])))))
       (RGroup 3 (RSet [CSpace]))).

(** pattern2: [(\s)([a-z_][a-z0-9_]*_[a-z0-9_]+)(\s|[.,;)\]])]. *)
Definition pattern2 : regex :=
  RCat (RGroup 1 (RSet [CSpace]))
    (RCat (RGroup 2
             (RCat (RSet [lower; uscore])
                (RCat (RStar [lower; digit; uscore])
                   (RCat (RSet [uscore]) (RPlus [lower; digit; uscore])))))
       (RGroup 3
          (RAlt (RSet [CSpace])
             (RSet [CChar (ch "."); CChar (ch ","); CChar (ch ";");
                    CChar (ch ")"); CChar (ch "]")])))).

(** pattern3, group by group: [(\s)], [([A-Z][a-zA-Z0-9]* [A-Z][a-zA-Z0-9]* )]
    (written here with blanks that the pattern does not have), [(\s)]. *)
Definition pattern3 : regex :=
  RCat (RGroup 1 (RSet [CSpace]))
    (RCat (RGroup 2
             (RCat (RSet [upper])
                (RCat (RStar [lower; upper; digit])
                   (RCat (RSet [upper]) (RStar [lower; upper; digit])))))
       (RGroup 3 (RSet [CSpace]))).

(** The template [\1`\2`\3] the three substitutions share. *)
Definition wrap_repl : list titem :=
  [TGroup 1; TLit [btick]; TGroup 2; TLit [btick]; TGroup 3].

(** ** [fix_doc_line] *)

Definition fix_doc_line (line : str) : str :=
  if negb (startswith (lstrip line) (of_string "///")) then line
  else
    let line := re_sub pattern1 wrap_repl line in
    let line := re_sub pattern2 wrap_repl line in
    let line := re_sub pattern3 wrap_repl line in
    line.

(** ** The driver: files, lines and the report *)

(** Text-mode reading ([open(path, 'r')], [newline=None]): universal
    newlines, a CR LF pair and a lone CR both arrive as LF. *)
Fixpoint universal_newlines (s : str) : str :=
  match s with
  | [] => []
  | c :: s' =>
      if c =? CR then
        match s' with
        | d :: s'' =>
            if d =? LF then LF :: universal_newlines s''
            else LF :: universal_newlines s'
        | [] => [LF]
        end
      else c :: universal_newlines s'
  end.

(** [f.readlines()]: the text cut behind every LF, the LF kept. *)
Fixpoint readlines (s : str) : list str :=
  match s with
  | [] => []
  | c :: s' =>
      if c =? LF then [c] :: readlines s'
      else
        match readlines s' with
        | [] => [[c]]
        | l :: ls => (c :: l) :: ls
        end
  end.

(** Text-mode writing: every LF leaves as [os.linesep]. *)
Definition write_translate (linesep : str) (s : str) : str :=
  flat_map (fun c => if c =? LF then linesep else [c]) s.

Definition posix_linesep : str := [LF].
Definition windows_linesep : str := [CR; LF].

(** One turn of [for line in lines]: the state is [(new_lines,
    file_changes)]. *)
Definition line_step (acc : list str * nat) (line : str) : list str * nat :=
  let new_line := fix_doc_line line in
  (acc.1 ++ [new_line],
   if bool_decide (new_line ≠ line) then S acc.2 else acc.2).

Definition fix_lines (lines : list str) : list str * nat :=
  foldl line_step ([], 0%nat) lines.

(** What the script does to the outside: files written and lines printed. *)
Inductive event : Type :=
| EWrite (file_path : string) (content : str)
| EPrint (text : str).

(** The files (path to decoded text), the events so far, and the global
    [total_changes]. *)
Record world : Type := World {
  files : gmap string str;
  trace : list event;
  total_changes : nat
}.

Definition decimal (n : nat) : str :=
  of_string (NilZero.string_of_uint (Nat.to_uint n)).

(** [f"✓ {file_path}: {file_changes} lines updated"] *)
Definition report_line (file_path : string) (file_changes : nat) : str :=
  [10003; 32] ++ of_string file_path ++ of_string ": "
  ++ decimal file_changes ++ of_string " lines updated".

(** [f"\nTotal: {total_changes} doc comments updated"] *)
Definition total_line (n : nat) : str :=
  [LF] ++ of_string "Total: " ++ decimal n ++ of_string " doc comments updated".

(** The body of [for file_path in rust_files]; [None] is the exception of
    opening a file that is not there, which ends the script. *)
Definition process_file (linesep : str) (w : world) (file_path : string)
  : option world :=
  match files w !! file_path with
  | None => None
  | Some content =>
      let lines := readlines (universal_newlines content) in
      let '(new_lines, file_changes) := fix_lines lines in
      if (0 <? file_changes)%nat then
        let written := write_translate linesep (concat new_lines) in
        Some {| files := <[file_path := written]> (files w);
                trace := trace w ++ [EWrite file_path written;
                                     EPrint (report_line file_path file_changes)];
                total_changes := (total_changes w + file_changes)%nat |}
      else Some w
  end.

Fixpoint process_files (linesep : str) (w : world) (rust_files : list string)
  : option world :=
  match rust_files with
  | [] => Some w
  | file_path :: rest =>
      match process_file linesep w file_path with
      | Some w' => process_files linesep w' rest
      | None => None
      end
  end.

(** The script, from the files [glob] found to the final print. *)
Definition main (linesep : str) (fs : gmap string str)
  (rust_files : list string) : option world :=
  match process_files linesep
          {| files := fs; trace := []; total_changes := 0 |} rust_files with
  | Some w =>
      Some {| files := files w;
              trace := trace w ++ [EPrint (total_line (total_changes w))];
              total_changes := total_changes w |}
  | None => None
  end.

(** ** Vocabulary of the specification *)

Definition is_lower (c : char) : bool := (97 <=? c) && (c <=? 122).
Definition is_upper (c : char) : bool := (65 <=? c) && (c <=? 90).
Definition is_digit (c : char) : bool := (48 <=? c) && (c <=? 57).
Definition is_uscore (c : char) : bool := c =? 95.

Definition ident_start (c : char) : bool :=
  is_lower c || is_upper c || is_uscore c.
Definition ident_char (c : char) : bool :=
  is_lower c || is_upper c || is_digit c || is_uscore c.
Definition snake_char (c : char) : bool :=
  is_lower c || is_digit c || is_uscore c.
Definition alnum (c : char) : bool :=
  is_lower c || is_upper c || is_digit c.

(** Identifier characters and then the pair of parentheses. *)
Fixpoint ends_call (t : str) : bool :=
  match t with
  | [] => false
  | c :: t' =>
      if ident_char c then ends_call t'
      else (c =? 40) && match t' with [d] => d =? 41 | _ => false end
  end.

(** A call-like token: an identifier and [()]. *)
Definition call_token (t : str) : bool :=
  match t with
  | c :: t' => ident_start c && ends_call t'
  | [] => false
  end.

(** An underscore of [t] that is not its last character. *)
Fixpoint inner_uscore (t : str) : bool :=
  match t with
  | c :: (_ :: _) as t' => is_uscore c || inner_uscore t'
  | _ => false
  end.

(** A snake_case token: it begins with a lowercase letter or an underscore,
    is made of lowercase letters, digits and underscores, and has an
    underscore that is neither its first nor its last character. *)
Definition snake_token (t : str) : bool :=
  match t with
  | c :: t' =>
      (is_lower c || is_uscore c) && forallb snake_char t' && inner_uscore t'
  | [] => false
  end.

(** A PascalCase token: it begins with an uppercase letter, is made of
    letters and digits, and has a second uppercase letter. *)
Definition pascal_token (t : str) : bool :=
  match t with
  | c :: t' => is_upper c && forallb alnum t' && existsb is_upper t'
  | [] => false
  end.

(** What may follow a snake_case token: whitespace or one of [.,;)]]. *)
Definition snake_boundary (c : char) : bool :=
  isspace c || (c =? 46) || (c =? 44) || (c =? 59) || (c =? 41) || (c =? 93).

(** The three rules, in the order [fix_doc_line] applies them. *)
Inductive rule : Type := CallLike | SnakeCase | PascalCase.

Definition rule_pattern (r : rule) : regex :=
  match r with
  | CallLike => pattern1
  | SnakeCase => pattern2
  | PascalCase => pattern3
  end.

Definition rule_token (r : rule) : str -> bool :=
  match r with
  | CallLike => call_token
  | SnakeCase => snake_token
  | PascalCase => pascal_token
  end.

Definition rule_boundary (r : rule) : char -> bool :=
  match r with
  | CallLike => isspace
  | SnakeCase => snake_boundary
  | PascalCase => isspace
  end.

(** The characters a token of the rule is made of. *)
Definition rule_char (r : rule) : char -> bool :=
  match r with
  | CallLike => fun c => ident_char c || (c =? 40) || (c =? 41)
  | SnakeCase => snake_char
  | PascalCase => alnum
  end.

(** [w tok b] is text the rule's pattern matches: whitespace, a token of the
    rule, a boundary character. *)
Definition candidate (r : rule) (w : char) (tok : str) (b : char) : bool :=
  isspace w && rule_token r tok && rule_boundary r b.

(** A candidate of the rule starts [t]. *)
Definition starts_candidate (r : rule) (t : str) : Prop :=
  exists w tok b rest, t = w :: tok ++ b :: rest /\ candidate r w tok b = true.

(** The groups of a match of one of the three patterns. *)
Definition match_groups (w : char) (tok : str) (b : char) : groups :=
  <[3%nat := [b]]> (<[2%nat := tok]> (<[1%nat := [w]]> ∅)).

Definition raws (l : list seg) : str := flat_map raw l.

(** The substitution of pattern [r] over [s] wraps the token [tok] that
    stands between [pre ++ [w]] and [b :: post]: the scan has a match there,
    of [w], the token and [b]. *)
Definition wrapped (r : regex) (s pre : str) (w : char) (tok : str) (b : char)
  (post : str) : Prop :=
  exists segs1 segs2,
    scan r 0 s
    = segs1 ++ SMatch (w :: tok ++ [b]) (match_groups w tok b) :: segs2
    /\ raws segs1 = pre /\ raws segs2 = post.

(** The character behind [pre] in [s] is the trailing boundary of a token the
    substitution wraps: the match before has used it up. *)
Definition consumed (r : regex) (s pre : str) : Prop :=
  exists pre0 w0 tok0 b0 post0,
    wrapped r s pre0 w0 tok0 b0 post0 /\ pre = pre0 ++ w0 :: tok0.

(** One pass of a rule, as a relation: characters are copied, and around
    some candidates of the rule two backticks are put, one behind the
    whitespace before the token and one before the boundary behind it. *)
Inductive ticked (r : rule) : str -> str -> Prop :=
| ticked_nil : ticked r [] []
| ticked_copy c s s' : ticked r s s' -> ticked r (c :: s) (c :: s')
| ticked_wrap w tok b s s' :
    candidate r w tok b = true ->
    ticked r s s' ->
    ticked r (w :: tok ++ b :: s) (w :: btick :: tok ++ btick :: b :: s').

(** [s'] is [s] with backticks put in, anywhere. *)
Inductive ins : str -> str -> Prop :=
| ins_nil : ins [] []
| ins_copy c s s' : ins s s' -> ins (c :: s) (c :: s')
| ins_tick s s' : ins s s' -> ins s (btick :: s').

(** Every candidate of the rule in [s] stands right behind a backtick. *)
Definition guarded (r : rule) (s : str) : Prop :=
  forall pre t, s = pre ++ t -> starts_candidate r t ->
    exists pre0, pre = pre0 ++ [btick].

(** No candidate of the rule in [s]. *)
Definition settled (r : rule) (s : str) : Prop :=
  forall pre t, s = pre ++ t -> ~ starts_candidate r t.

(** The language of a pattern, groups aside. *)
Fixpoint lang (r : regex) (u : str) : Prop :=
  match r with
  | RSet cs => exists c, u = [c] /\ in_class cs c = true
  | RStar cs => forallb (in_class cs) u = true
  | RPlus cs => u <> [] /\ forallb (in_class cs) u = true
  | RCat r1 r2 => exists u1 u2, u = u1 ++ u2 /\ lang r1 u1 /\ lang r2 u2
  | RAlt r1 r2 => lang r1 u \/ lang r2 u
  | RGroup _ r => lang r u
  end.

Fixpoint group_free (r : regex) : bool :=
  match r with
  | RSet _ | RStar _ | RPlus _ => true
  | RCat r1 r2 | RAlt r1 r2 => group_free r1 && group_free r2
  | RGroup _ _ => false
  end.

(** The shape the three patterns share: [(\s)(T)(B)]. *)
Definition tok_pattern (T B : regex) : regex :=
  RCat (RGroup 1 (RSet [CSpace])) (RCat (RGroup 2 T) (RGroup 3 B)).

Definition rule_tok_re (r : rule) : regex :=
  match rule_pattern r with
  | RCat _ (RCat (RGroup _ T) _) => T
  | _ => RSet []
  end.

Definition rule_bd_re (r : rule) : regex :=
  match rule_pattern r with
  | RCat _ (RCat _ (RGroup _ B)) => B
  | _ => RSet []
  end.

(** A line as [readlines] gives it: not empty, and no LF but at its end. *)
Fixpoint one_line (l : str) : bool :=
  match l with
  | [] => false
  | [c] => true
  | c :: l' => negb (c =? LF) && one_line l'
  end.

Definition ends_lf (l : str) : bool :=
  match last l with
  | Some c => c =? LF
  | None => false
  end.

(** The lines of a text: each is one line, and all but the last end in LF. *)
Fixpoint lines_ok (ls : list str) : bool :=
  match ls with
  | [] => true
  | [l] => one_line l
  | l :: ls' => one_line l && ends_lf l && lines_ok ls'
  end.

(** The guard of [fix_doc_line], and the three substitutions behind it. *)
Definition is_doc_line (line : str) : bool :=
  startswith (lstrip line) (of_string "///").

Definition three_passes (line : str) : str :=
  re_sub pattern3 wrap_repl
    (re_sub pattern2 wrap_repl (re_sub pattern1 wrap_repl line)).

(** The number of lines [fix_doc_line] changes. *)
Definition changed_count (lines : list str) : nat :=
  length (filter (fun l => fix_doc_line l <> l) lines).

Definition writes_to (file_path : string) (e : event) : Prop :=
  exists content, e = EWrite file_path content.

(** File [q] still has its content [c] and no event has written it. *)
Definition untouched (q : string) (c : str) (w : world) : Prop :=
  files w !! q = Some c /\ forall e, e ∈ trace w -> ~ writes_to q e.

(** The number of places where two backticks stand side by side. *)
Fixpoint tick_pairs (s : str) : nat :=
  match s with
  | a :: (b :: _) as s' =>
      let here := if (a =? btick) && (b =? btick) then 1%nat else 0%nat in
      (here + tick_pairs s')%nat
  | _ => 0%nat
  end.

(** One file of the run, from its content alone: the lines read, the text
    written for them, the content the file has afterwards, and the events
    of its turn of the loop. *)
Definition file_lines (content : str) : list str :=
  readlines (universal_newlines content).

Definition file_written (linesep content : str) : str :=
  write_translate linesep (concat (map fix_doc_line (file_lines content))).

Definition file_after (linesep content : str) : str :=
  if (0 <? changed_count (file_lines content))%nat
  then file_written linesep content
  else content.

Definition file_events (linesep : str) (file_path : string) (content : str)
  : list event :=
  if (0 <? changed_count (file_lines content))%nat
  then [EWrite file_path (file_written linesep content);
        EPrint (report_line file_path (changed_count (file_lines content)))]
  else [].

(** * The matcher and the language of a pattern *)

Section Matcher.
Context {A : Type}.
Implicit Types (k : str -> option A) (kg : str -> groups -> option A).

(** Greedy repetition succeeds only through a split of the subject whose
    first part is in the class. *)
Lemma star_greedy_sound p s k x :
  star_greedy p s k = Some x ->
  exists u v, s = u ++ v /\ forallb p u = true /\ k v = Some x.
Proof.
  induction s as [|c s IH]; simpl.
  - intros H. exists [], []. auto.
  - destruct (p c) eqn:Hc.
    + destruct (star_greedy p s k) as [y|] eqn:Hs.
      * intros [= ->]. destruct (IH eq_refl) as (u & v & -> & Hu & Hk).
        exists (c :: u), v. simpl. rewrite Hc, Hu. auto.
      * intros H. exists [], (c :: s). auto.
    + intros H. exists [], (c :: s). auto.
Qed.

(** It fails only when the continuation fails behind every such split. *)
Lemma star_greedy_none p s k :
  star_greedy p s k = None ->
  forall u v, s = u ++ v -> forallb p u = true -> k v = None.
Proof.
  induction s as [|c s IH]; simpl; intros H u v Hs Hu.
  - destruct u; [|discriminate]. simpl in Hs. subst v. exact H.
  - destruct u as [|d u]; simpl in *.
    + subst v. destruct (p c); [|exact H].
      destruct (star_greedy p s k); [discriminate|exact H].
    + injection Hs as <- ->. apply andb_prop in Hu as [Hd Hu].
      rewrite Hd in H.
      destruct (star_greedy p (u ++ v) k) eqn:Hs; [discriminate|].
      eapply IH; eauto.
Qed.

Lemma rmatch_sound r :
  group_free r = true ->
  forall s g kg x, rmatch r s g kg = Some x ->
    exists u v, s = u ++ v /\ lang r u /\ kg v g = Some x.
Proof.
  induction r as [cs|cs|cs|r1 IH1 r2 IH2|r1 IH1 r2 IH2|n r IH];
    simpl; intros Hf s g kg x H.
  - destruct s as [|c s]; [discriminate|].
    destruct (in_class cs c) eqn:Hc; [|discriminate].
    exists [c], s. eauto.
  - apply star_greedy_sound in H as (u & v & -> & Hu & Hk). eauto.
  - destruct s as [|c s]; [discriminate|].
    destruct (in_class cs c) eqn:Hc; [|discriminate].
    apply star_greedy_sound in H as (u & v & -> & Hu & Hk).
    exists (c :: u), v. simpl. rewrite Hc, Hu. repeat split; auto.
  - apply andb_prop in Hf as [Hf1 Hf2].
    apply (IH1 Hf1) in H as (u1 & v1 & -> & Hu1 & H).
    apply (IH2 Hf2) in H as (u2 & v2 & -> & Hu2 & H).
    exists (u1 ++ u2), v2. rewrite <- app_assoc. eauto 10.
  - apply andb_prop in Hf as [Hf1 Hf2].
    destruct (rmatch r1 s g kg) as [y|] eqn:H1.
    + injection H as ->. apply (IH1 Hf1) in H1 as (u & v & ? & ? & ?).
      eauto 10.
    + apply (IH2 Hf2) in H as (u & v & ? & ? & ?). eauto 10.
  - discriminate.
Qed.

Lemma rmatch_none r :
  group_free r = true ->
  forall s g kg, rmatch r s g kg = None ->
    forall u v, s = u ++ v -> lang r u -> kg v g = None.
Proof.
  induction r as [cs|cs|cs|r1 IH1 r2 IH2|r1 IH1 r2 IH2|n r IH];
    simpl; intros Hf s g kg H u v Hs Hu.
  - destruct Hu as (c & -> & Hc). subst s. simpl in H.
    rewrite Hc in H. exact H.
  - exact (star_greedy_none _ _ _ H u v Hs Hu).
  - destruct Hu as [Hne Hu]. destruct u as [|c u]; [done|].
    subst s. simpl in *. apply andb_prop in Hu as [Hc Hu].
    rewrite Hc in H.
    exact (star_greedy_none _ _ _ H u v eq_refl Hu).
  - apply andb_prop in Hf as [Hf1 Hf2].
    destruct Hu as (u1 & u2 & -> & Hu1 & Hu2).
    rewrite <- app_assoc in Hs.
    pose proof (IH1 Hf1 _ _ _ H u1 (u2 ++ v) Hs Hu1) as H2.
    simpl in H2. exact (IH2 Hf2 _ _ _ H2 u2 v eq_refl Hu2).
  - apply andb_prop in Hf as [Hf1 Hf2].
    destruct (rmatch r1 s g kg) eqn:H1; [discriminate|].
    destruct Hu as [Hu|Hu]; eauto.
  - discriminate.
Qed.

(** When only one split lets the continuation go on, the matcher takes
    it. *)
Lemma rmatch_unique r u v g kg :
  group_free r = true ->
  lang r u ->
  (forall u' v', u ++ v = u' ++ v' -> lang r u' -> u' <> u ->
     kg v' g = None) ->
  rmatch r (u ++ v) g kg = kg v g.
Proof.
  intros Hf Hu Huniq.
  destruct (rmatch r (u ++ v) g kg) as [x|] eqn:H.
  - apply (rmatch_sound _ Hf) in H as (u' & v' & Hs & Hu' & Hk).
    destruct (decide (u' = u)) as [->|Hne].
    + apply app_inv_head in Hs. subst v'. auto.
    + rewrite (Huniq _ _ Hs Hu' Hne) in Hk. discriminate.
  - symmetry. eapply rmatch_none; eauto.
Qed.
End Matcher.

(** * Characters of the three rules *)

(** Comparisons of code points to propositions, and then arithmetic. *)
Ltac char_arith :=
  unfold candidate, rule_char, rule_boundary, snake_boundary, ident_start,
    ident_char, snake_char, alnum, is_lower, is_upper, is_digit, is_uscore,
    isspace, btick, LF, CR in *;
  repeat match goal with
         | |- _ = false => apply not_true_is_false; intro
         | H : _ = false |- _ => apply not_true_iff_false in H
         end;
  rewrite ?orb_true_iff, ?andb_true_iff, ?N.leb_le, ?N.eqb_eq in *;
  lia.

#[local] Arguments in_class : simpl never.

Lemma class_ident_start c :
  in_class [lower; upper; uscore] c = ident_start c.
Proof. unfold in_class. simpl. rewrite orb_false_r, orb_assoc. reflexivity. Qed.

Lemma class_ident_char c :
  in_class [lower; upper; digit; uscore] c = ident_char c.
Proof.
  unfold in_class. simpl. rewrite orb_false_r, !orb_assoc. reflexivity.
Qed.

Lemma class_snake_start c :
  in_class [lower; uscore] c = is_lower c || is_uscore c.
Proof. unfold in_class. simpl. rewrite orb_false_r. reflexivity. Qed.

Lemma class_snake_char c :
  in_class [lower; digit; uscore] c = snake_char c.
Proof. unfold in_class. simpl. rewrite orb_false_r, orb_assoc. reflexivity. Qed.

Lemma class_alnum c : in_class [lower; upper; digit] c = alnum c.
Proof. unfold in_class. simpl. rewrite orb_false_r, orb_assoc. reflexivity. Qed.

Lemma class_upper c : in_class [upper] c = is_upper c.
Proof. unfold in_class. simpl. apply orb_false_r. Qed.

Lemma class_uscore c : in_class [uscore] c = is_uscore c.
Proof. unfold in_class. simpl. apply orb_false_r. Qed.

Lemma class_space c : in_class [CSpace] c = isspace c.
Proof. unfold in_class. simpl. apply orb_false_r. Qed.

Lemma class_snake_punct c :
  isspace c
  || in_class [CChar (ch "."); CChar (ch ","); CChar (ch ";");
               CChar (ch ")"); CChar (ch "]")] c
  = snake_boundary c.
Proof.
  unfold in_class, snake_boundary. simpl. rewrite orb_false_r, !orb_assoc.
  reflexivity.
Qed.

Lemma rule_char_not_space r c : rule_char r c = true -> isspace c = false.
Proof. destruct r; intros H; char_arith. Qed.

Lemma rule_char_not_btick r : rule_char r btick = false.
Proof. destruct r; reflexivity. Qed.

Lemma rule_char_not_boundary r c :
  rule_char r c = true -> rule_boundary r c = false.
Proof. destruct r; intros H; char_arith. Qed.

Lemma rule_boundary_not_btick r : rule_boundary r btick = false.
Proof. destruct r; reflexivity. Qed.

Lemma isspace_not_btick c : isspace c = true -> c <> btick.
Proof. intros H ->. discriminate. Qed.

Lemma isspace_not_rule_char r c : isspace c = true -> rule_char r c = false.
Proof.
  intros H. destruct (rule_char r c) eqn:E; [|reflexivity].
  apply rule_char_not_space in E. congruence.
Qed.

(** * Tokens: the words of the specification and the patterns *)

Lemma forallb_eq {X} (f g : X -> bool) :
  (forall x, f x = g x) -> forall l, forallb f l = forallb g l.
Proof. intros H l. induction l as [|a l IH]; simpl; congruence. Qed.

Lemma forallb_ident l :
  forallb (in_class [lower; upper; digit; uscore]) l = forallb ident_char l.
Proof. apply forallb_eq, class_ident_char. Qed.

Lemma forallb_snake l :
  forallb (in_class [lower; digit; uscore]) l = forallb snake_char l.
Proof. apply forallb_eq, class_snake_char. Qed.

Lemma forallb_alnum l :
  forallb (in_class [lower; upper; digit]) l = forallb alnum l.
Proof. apply forallb_eq, class_alnum. Qed.

Lemma ends_call_split t :
  ends_call t = true <->
  exists u, t = u ++ [40; 41] /\ forallb ident_char u = true.
Proof.
  split.
  - induction t as [|c t IH]; simpl; [discriminate|].
    destruct (ident_char c) eqn:Hc.
    + intros H. destruct (IH H) as (u & -> & Hu).
      exists (c :: u). simpl. rewrite Hc, Hu. auto.
    + intros H. apply andb_prop in H as [H1 H2].
      apply N.eqb_eq in H1 as ->.
      destruct t as [|d [|? ?]]; try discriminate.
      apply N.eqb_eq in H2 as ->. exists []. auto.
  - intros (u & -> & Hu). induction u as [|a u IH]; [reflexivity|].
    simpl in *. apply andb_prop in Hu as [Ha Hu]. rewrite Ha. auto.
Qed.

Lemma snake_tail_split t :
  forallb snake_char t && inner_uscore t = true <->
  exists u v, t = u ++ 95 :: v /\ forallb snake_char u = true
              /\ v <> [] /\ forallb snake_char v = true.
Proof.
  split.
  - induction t as [|c t IH]; [rewrite andb_false_r; discriminate|].
    intros H. apply andb_prop in H as [Hall Hin].
    simpl in Hall. apply andb_prop in Hall as [Hc Hall].
    destruct t as [|d t]; [discriminate|].
    change (is_uscore c || inner_uscore (d :: t) = true) in Hin.
    destruct (is_uscore c) eqn:Hu.
    + apply N.eqb_eq in Hu as ->. exists [], (d :: t). auto.
    + change (inner_uscore (d :: t) = true) in Hin.
      destruct IH as (u & v & E & Hu' & Hv & Hv').
      { rewrite Hall, Hin. reflexivity. }
      exists (c :: u), v. rewrite E. simpl. rewrite Hc, Hu'. auto.
  - intros (u & v & -> & Hu & Hv & Hv'). induction u as [|a u IH].
    + destruct v as [|d v]; [done|]. simpl in *. rewrite Hv'. reflexivity.
    + simpl in Hu. apply andb_prop in Hu as [Ha Hu].
      specialize (IH Hu). apply andb_prop in IH as [IH1 IH2].
      change (forallb snake_char (a :: (u ++ 95 :: v))
              && inner_uscore (a :: (u ++ 95 :: v)) = true).
      destruct (u ++ 95 :: v) as [|e l] eqn:E.
      { destruct u; discriminate. }
      change (inner_uscore (a :: e :: l))
        with (is_uscore a || inner_uscore (e :: l)).
      simpl forallb. simpl in IH1. rewrite Ha, IH1, IH2, orb_true_r.
      reflexivity.
Qed.

Lemma pascal_tail_split t :
  forallb alnum t && existsb is_upper t = true <->
  exists u d v, t = u ++ d :: v /\ forallb alnum u = true
                /\ is_upper d = true /\ forallb alnum v = true.
Proof.
  split.
  - induction t as [|c t IH]; [rewrite andb_false_r; discriminate|].
    intros H. apply andb_prop in H as [Hall Hex]. simpl in *.
    apply andb_prop in Hall as [Hc Hall].
    destruct (is_upper c) eqn:Hu.
    + exists [], c, t. auto.
    + simpl in Hex. destruct IH as (u & d & v & -> & Hu' & Hd & Hv).
      { rewrite Hall, Hex. reflexivity. }
      exists (c :: u), d, v. simpl. rewrite Hc, Hu'. auto.
  - intros (u & d & v & -> & Hu & Hd & Hv).
    assert (Hdal : alnum d = true).
    { unfold alnum. rewrite Hd, orb_true_r. reflexivity. }
    apply andb_true_intro. split.
    + rewrite forallb_app. simpl. rewrite Hu, Hdal, Hv. reflexivity.
    + rewrite existsb_app. simpl. rewrite Hd, orb_true_r. reflexivity.
Qed.

(** The token part of each pattern accepts the tokens of its rule. *)
Lemma lang_tok_re r u : lang (rule_tok_re r) u <-> rule_token r u = true.
Proof.
  destruct r; simpl.
  - split.
    + intros (u1 & u2 & -> & (c & -> & Hc) & u3 & u4 & -> & Hu3
              & u5 & u6 & -> & (d & -> & Hd) & e & -> & He).
      rewrite class_ident_start in Hc. rewrite forallb_ident in Hu3.
      apply andb_true_intro. split; [exact Hc|].
      apply ends_call_split. exists u3.
      unfold in_class in Hd, He. simpl in Hd, He.
      rewrite orb_false_r in Hd, He.
      apply N.eqb_eq in Hd as ->. apply N.eqb_eq in He as ->.
      split; [reflexivity|exact Hu3].
    + destruct u as [|c u]; [discriminate|]. intros H.
      apply andb_prop in H as [Hc Hu].
      apply ends_call_split in Hu as (u3 & -> & Hu3).
      exists [c], (u3 ++ [40; 41]). split; [reflexivity|]. split.
      { exists c. rewrite class_ident_start. auto. }
      exists u3, [40; 41]. split; [reflexivity|].
      rewrite forallb_ident. split; [exact Hu3|].
      exists [40], [41]. split; [reflexivity|].
      split; [exists 40|exists 41]; auto.
  - split.
    + intros (u1 & u2 & -> & (c & -> & Hc) & u3 & u4 & -> & Hu3
              & u5 & u6 & -> & (d & -> & Hd) & Hne & Hu6).
      rewrite class_snake_start in Hc. rewrite class_uscore in Hd.
      rewrite forallb_snake in Hu3, Hu6.
      apply N.eqb_eq in Hd as ->.
      simpl. rewrite Hc. apply snake_tail_split. exists u3, u6. auto.
    + destruct u as [|c u]; [discriminate|]. intros H.
      unfold snake_token in H.
      rewrite <- andb_assoc in H. apply andb_prop in H as [Hc Hu].
      apply snake_tail_split in Hu as (u3 & u6 & -> & Hu3 & Hne & Hu6).
      exists [c], (u3 ++ 95 :: u6). split; [reflexivity|]. split.
      { exists c. rewrite class_snake_start. auto. }
      exists u3, (95 :: u6). split; [reflexivity|].
      rewrite !forallb_snake. split; [exact Hu3|].
      exists [95], u6. split; [reflexivity|]. split; [exists 95; auto|].
      split; [exact Hne|]. rewrite forallb_snake. exact Hu6.
  - split.
    + intros (u1 & u2 & -> & (c & -> & Hc) & u3 & u4 & -> & Hu3
              & u5 & u6 & -> & (d & -> & Hd) & Hu6).
      rewrite class_upper in Hc, Hd. rewrite forallb_alnum in Hu3, Hu6.
      simpl. rewrite Hc. apply pascal_tail_split. exists u3, d, u6. auto.
    + destruct u as [|c u]; [discriminate|]. intros H.
      unfold pascal_token in H.
      rewrite <- andb_assoc in H. apply andb_prop in H as [Hc Hu].
      apply pascal_tail_split in Hu as (u3 & d & u6 & -> & Hu3 & Hd & Hu6).
      exists [c], (u3 ++ d :: u6). split; [reflexivity|]. split.
      { exists c. rewrite class_upper. auto. }
      exists u3, (d :: u6). split; [reflexivity|].
      rewrite !forallb_alnum. split; [exact Hu3|].
      exists [d], u6. split; [reflexivity|]. split.
      { exists d. rewrite class_upper. auto. }
      rewrite forallb_alnum. exact Hu6.
Qed.

Lemma forallb_impl {X} (f g : X -> bool) l :
  (forall x, f x = true -> g x = true) ->
  forallb f l = true -> forallb g l = true.
Proof.
  intros H. induction l as [|a l IH]; simpl; [auto|].
  intros Hl. apply andb_prop in Hl as [Ha Hl]. rewrite (H _ Ha). auto.
Qed.

(** A token is not empty and is made of the characters of its rule. *)
Lemma rule_token_chars r tok :
  rule_token r tok = true ->
  tok <> [] /\ forallb (rule_char r) tok = true.
Proof.
  destruct r; simpl; (destruct tok as [|c t]; [discriminate|]);
    intros H; (split; [discriminate|]).
  - apply andb_prop in H as [Hc Ht].
    apply ends_call_split in Ht as (u & -> & Hu).
    simpl. rewrite forallb_app. apply andb_true_intro. split.
    { char_arith. }
    apply andb_true_intro. split; [|reflexivity].
    revert Hu. apply forallb_impl. intros x Hx. rewrite Hx. reflexivity.
  - unfold snake_token in H. rewrite <- andb_assoc in H.
    apply andb_prop in H as [Hc Ht]. apply andb_prop in Ht as [Ht _].
    simpl. rewrite Ht, andb_true_r. char_arith.
  - unfold pascal_token in H. rewrite <- andb_assoc in H.
    apply andb_prop in H as [Hc Ht]. apply andb_prop in Ht as [Ht _].
    simpl. rewrite Ht, andb_true_r. char_arith.
Qed.

Lemma rule_pattern_shape r :
  rule_pattern r = tok_pattern (rule_tok_re r) (rule_bd_re r).
Proof. destruct r; reflexivity. Qed.

Lemma rule_tok_re_group_free r : group_free (rule_tok_re r) = true.
Proof. destruct r; reflexivity. Qed.

(** The last group of each pattern takes one boundary character. *)
Lemma rmatch_bd_re {A} r s g (k : str -> groups -> option A) :
  rmatch (rule_bd_re r) s g k
  = match s with
    | c :: s' => if rule_boundary r c then k s' g else None
    | [] => None
    end.
Proof.
  destruct r; simpl; destruct s as [|c s]; try reflexivity;
    rewrite ?class_space; try reflexivity.
  rewrite <- class_snake_punct.
  destruct (isspace c); simpl.
  - destruct (k s g); [reflexivity|].
    match goal with |- context [in_class ?cs c] => destruct (in_class cs c) end;
      reflexivity.
  - reflexivity.
Qed.

Lemma take_sub_cons (c : char) s :
  take (S (length s) - length s) (c :: s) = [c].
Proof.
  replace (S (length s) - length s)%nat with 1%nat by lia. reflexivity.
Qed.

Lemma take_sub_app (u : str) (b : char) (v : str) :
  take (length (u ++ b :: v) - S (length v)) (u ++ b :: v) = u.
Proof.
  replace (length (u ++ b :: v) - S (length v))%nat with (length u)
    by (rewrite length_app; simpl; lia).
  apply take_app_length.
Qed.

(** What a pattern matches at the start of a string: whitespace, a token of
    the rule and a boundary character, which become the three groups. *)
Lemma re_match_rule r s g rest :
  re_match (rule_pattern r) s = Some (g, rest) <->
  exists w tok b,
    s = w :: tok ++ b :: rest /\ candidate r w tok b = true
    /\ g = match_groups w tok b.
Proof.
  rewrite rule_pattern_shape. unfold re_match, tok_pattern.
  cbn [rmatch]. split.
  - destruct s as [|w s]; [discriminate|].
    rewrite class_space. destruct (isspace w) eqn:Hw; [|discriminate].
    intros H.
    apply (rmatch_sound _ (rule_tok_re_group_free r))
      in H as (tok & v & -> & Htok & H).
    rewrite rmatch_bd_re in H. destruct v as [|b v]; [discriminate|].
    destruct (rule_boundary r b) eqn:Hb; [|discriminate].
    injection H as <- ->. exists w, tok, b.
    apply lang_tok_re in Htok. unfold candidate.
    rewrite Hw, Htok, Hb. repeat split. cbn [length].
    rewrite take_sub_cons, take_sub_app, take_sub_cons. reflexivity.
  - intros (w & tok & b & -> & Hc & ->).
    unfold candidate in Hc. apply andb_prop in Hc as [Hc Hb].
    apply andb_prop in Hc as [Hw Htok].
    cbn [length]. rewrite class_space, Hw, take_sub_cons.
    rewrite rmatch_unique.
    + rewrite rmatch_bd_re, Hb. cbn [length].
      rewrite take_sub_app, take_sub_cons. reflexivity.
    + apply rule_tok_re_group_free.
    + apply lang_tok_re. exact Htok.
    + intros u' v' Hs Hu' Hne. rewrite rmatch_bd_re.
      apply lang_tok_re, rule_token_chars in Hu' as [_ Hu'].
      apply rule_token_chars in Htok as [_ Htok].
      apply app_eq_app in Hs as [l [[-> ->]|[-> Hl]]].
      * destruct l as [|x l]; [rewrite app_nil_r in Hne; done|].
        rewrite forallb_app in Htok. apply andb_prop in Htok as [_ Htok].
        simpl in Htok. apply andb_prop in Htok as [Hx _].
        simpl. rewrite (rule_char_not_boundary _ _ Hx). reflexivity.
      * destruct l as [|x l]; [rewrite app_nil_r in Hne; done|].
        injection Hl as <- _.
        rewrite forallb_app in Hu'. apply andb_prop in Hu' as [_ Hu'].
        simpl in Hu'. apply andb_prop in Hu' as [Hx _].
        apply rule_char_not_boundary in Hx. congruence.
Qed.

(** * The scan of one rule *)

Section Scan.
Variable r : rule.

Lemma starts_candidate_match t :
  starts_candidate r t <->
  exists g rest, re_match (rule_pattern r) t = Some (g, rest).
Proof.
  split.
  - intros (w & tok & b & rest & -> & Hc).
    exists (match_groups w tok b), rest. apply re_match_rule.
    exists w, tok, b. auto.
  - intros (g & rest & H).
    apply re_match_rule in H as (w & tok & b & -> & Hc & _).
    exists w, tok, b, rest. auto.
Qed.

Lemma re_match_none t :
  re_match (rule_pattern r) t = None <-> ~ starts_candidate r t.
Proof.
  rewrite starts_candidate_match. split.
  - intros H (g & rest & H'). congruence.
  - intros H. destruct (re_match (rule_pattern r) t) as [[g rest]|] eqn:E;
      [|reflexivity].
    destruct H. eauto.
Qed.

Lemma starts_candidate_dec t :
  starts_candidate r t \/ ~ starts_candidate r t.
Proof.
  destruct (re_match (rule_pattern r) t) as [[g rest]|] eqn:E.
  - left. apply starts_candidate_match. eauto.
  - right. apply re_match_none. exact E.
Qed.

(** A candidate begins with whitespace and a character of the rule. *)
Lemma starts_candidate_head t :
  starts_candidate r t ->
  exists w y t', t = w :: y :: t' /\ isspace w = true
                 /\ rule_char r y = true.
Proof.
  intros (w & tok & b & rest & -> & Hc).
  unfold candidate in Hc. apply andb_prop in Hc as [Hc _].
  apply andb_prop in Hc as [Hw Htok].
  apply rule_token_chars in Htok as [Hne Htok].
  destruct tok as [|y tok]; [done|]. simpl in Htok.
  apply andb_prop in Htok as [Hy _]. exists w, y, (tok ++ b :: rest). auto.
Qed.

Lemma not_candidate_nil : ~ starts_candidate r [].
Proof. intros H. apply starts_candidate_head in H as (?&?&?&?&_). done. Qed.

(** Passing the rest of a match is dropping it. *)
Lemma scan_skip n s :
  scan (rule_pattern r) n s = scan (rule_pattern r) 0 (drop n s).
Proof.
  revert n. induction s as [|c s IH]; intros [|n]; try reflexivity.
  - simpl. destruct (re_match (rule_pattern r) []) as [[g rest]|] eqn:E;
      [|reflexivity].
    destruct not_candidate_nil. apply starts_candidate_match. eauto.
  - simpl. apply IH.
Qed.

Lemma scan_nil : scan (rule_pattern r) 0 [] = [].
Proof.
  simpl. destruct (re_match (rule_pattern r) []) as [[g rest]|] eqn:E;
    [|reflexivity].
  destruct not_candidate_nil. apply starts_candidate_match. eauto.
Qed.

Lemma scan_copy c s :
  ~ starts_candidate r (c :: s) ->
  scan (rule_pattern r) 0 (c :: s) = SLit c :: scan (rule_pattern r) 0 s.
Proof. intros H. apply re_match_none in H. simpl. rewrite H. reflexivity. Qed.

Lemma scan_match w tok b rest :
  candidate r w tok b = true ->
  scan (rule_pattern r) 0 (w :: tok ++ b :: rest)
  = SMatch (w :: tok ++ [b]) (match_groups w tok b)
      :: scan (rule_pattern r) 0 rest.
Proof.
  intros Hc.
  assert (Hm : re_match (rule_pattern r) (w :: tok ++ b :: rest)
               = Some (match_groups w tok b, rest)).
  { apply re_match_rule. exists w, tok, b. auto. }
  cbn [scan]. rewrite Hm.
  replace (length (w :: tok ++ b :: rest) - length rest)%nat
    with (S (length (tok ++ [b])))
    by (simpl; rewrite !length_app; simpl; lia).
  rewrite scan_skip. f_equal.
  - f_equal. change (w :: tok ++ b :: rest) with (w :: tok ++ [b] ++ rest).
    rewrite app_assoc. simpl. f_equal. apply take_app_length.
  - f_equal. change (tok ++ b :: rest) with (tok ++ [b] ++ rest).
    rewrite app_assoc. apply drop_app_length.
Qed.

(** Induction along the scan: nothing left, a character copied, or a
    candidate matched. *)
Lemma scan_ind (Q : str -> Prop) :
  Q [] ->
  (forall c s, ~ starts_candidate r (c :: s) -> Q s -> Q (c :: s)) ->
  (forall w tok b rest,
      candidate r w tok b = true -> Q rest -> Q (w :: tok ++ b :: rest)) ->
  forall s, Q s.
Proof.
  intros Hnil Hcopy Hmatch s.
  remember (length s) as n eqn:Hn. revert s Hn.
  induction n as [n IH] using lt_wf_ind. intros s ->.
  destruct s as [|c s]; [exact Hnil|].
  destruct (starts_candidate_dec (c :: s)) as [Hc|Hc].
  - destruct Hc as (w & tok & b & rest & E & Hc). rewrite E.
    apply Hmatch; [exact Hc|].
    apply (IH (length rest)); [|reflexivity].
    rewrite E. simpl. rewrite length_app. simpl. lia.
  - apply Hcopy; [exact Hc|]. apply (IH (length s)); [simpl; lia|reflexivity].
Qed.

Lemma expand_match_groups w tok b :
  expand wrap_repl (match_groups w tok b)
  = w :: btick :: tok ++ [btick; b].
Proof. reflexivity. Qed.

Lemma re_sub_nil : re_sub (rule_pattern r) wrap_repl [] = [].
Proof. unfold re_sub. rewrite scan_nil. reflexivity. Qed.

Lemma re_sub_copy c s :
  ~ starts_candidate r (c :: s) ->
  re_sub (rule_pattern r) wrap_repl (c :: s)
  = c :: re_sub (rule_pattern r) wrap_repl s.
Proof. intros H. unfold re_sub. rewrite (scan_copy _ _ H). reflexivity. Qed.

Lemma re_sub_match w tok b rest :
  candidate r w tok b = true ->
  re_sub (rule_pattern r) wrap_repl (w :: tok ++ b :: rest)
  = w :: btick :: tok ++ btick :: b
      :: re_sub (rule_pattern r) wrap_repl rest.
Proof.
  intros H. unfold re_sub. rewrite (scan_match _ _ _ _ H).
  cbn [flat_map render]. rewrite expand_match_groups.
  simpl. rewrite <- app_assoc. reflexivity.
Qed.

(** The segments of the scan are the subject, cut. *)
Lemma raws_scan s : raws (scan (rule_pattern r) 0 s) = s.
Proof.
  induction s as [|c s Hc IH|w tok b rest Hc IH] using scan_ind.
  - rewrite scan_nil. reflexivity.
  - rewrite (scan_copy _ _ Hc). simpl. rewrite IH. reflexivity.
  - rewrite (scan_match _ _ _ _ Hc). unfold raws in *. cbn [flat_map raw].
    rewrite IH. simpl. rewrite <- app_assoc. reflexivity.
Qed.

(** One substitution is one pass of its rule. *)
Lemma re_sub_ticked s : ticked r s (re_sub (rule_pattern r) wrap_repl s).
Proof.
  induction s as [|c s Hc IH|w tok b rest Hc IH] using scan_ind.
  - rewrite re_sub_nil. constructor.
  - rewrite (re_sub_copy _ _ Hc). constructor. exact IH.
  - rewrite (re_sub_match _ _ _ _ Hc). constructor; assumption.
Qed.
End Scan.

(** * Backticks put in *)

Lemma ins_refl s : ins s s.
Proof. induction s; constructor; assumption. Qed.

Lemma ins_app a a' b b' : ins a a' -> ins b b' -> ins (a ++ b) (a' ++ b').
Proof. intros Ha Hb. induction Ha; simpl; try constructor; assumption. Qed.

Lemma ins_trans a b c : ins a b -> ins b c -> ins a c.
Proof.
  intros Hab Hbc. revert a Hab.
  induction Hbc as [|x s s' Hbc IH|s s' Hbc IH]; intros a Hab.
  - exact Hab.
  - inversion Hab; subst.
    + constructor. apply IH. assumption.
    + constructor. apply IH. assumption.
  - constructor. apply IH. assumption.
Qed.

Lemma ticked_ins r s s' : ticked r s s' -> ins s s'.
Proof.
  induction 1 as [|c s s' _ IH|w tok b s s' _ _ IH].
  - constructor.
  - constructor. exact IH.
  - apply ins_copy, ins_tick.
    apply (ins_app tok tok (b :: s) (btick :: b :: s')); [apply ins_refl|].
    apply ins_tick, ins_copy, IH.
Qed.

Lemma ins_inv_cons s a t' :
  ins s (a :: t') -> a <> btick -> exists s0, s = a :: s0 /\ ins s0 t'.
Proof. intros H Ha. inversion H; subst; [eauto|done]. Qed.

(** Text without backticks at the head of the result stood at the head of
    the original. *)
Lemma ins_prefix u s t' :
  btick ∉ u -> ins s (u ++ t') -> exists t, s = u ++ t /\ ins t t'.
Proof.
  revert s. induction u as [|a u IH]; intros s Hu H; [eauto|].
  apply not_elem_of_cons in Hu as [Ha Hu]. simpl in H.
  apply ins_inv_cons in H as (s0 & -> & H); [|congruence].
  destruct (IH _ Hu H) as (t & -> & Ht). eauto.
Qed.

(** And so for text without backticks anywhere in the result. *)
Lemma ins_window pre' u post' s :
  btick ∉ u -> u <> [] -> ins s (pre' ++ u ++ post') ->
  exists pre post, s = pre ++ u ++ post /\ ins pre pre' /\ ins post post'.
Proof.
  intros Hu Hne. revert s.
  induction pre' as [|a pre' IH]; intros s H; simpl in H.
  - destruct (ins_prefix _ _ _ Hu H) as (t & -> & Ht).
    exists [], t. repeat split; [constructor|exact Ht].
  - inversion H as [|c s0 s0' H0|s0 s0' H0]; subst.
    + destruct (IH _ H0) as (pre & post & -> & Hpre & Hpost).
      exists (a :: pre), post. repeat split; [constructor|]; assumption.
    + destruct (IH _ H0) as (pre & post & -> & Hpre & Hpost).
      exists pre, post. repeat split; [constructor|]; assumption.
Qed.

Lemma window_eq (w : char) tok b rest :
  w :: tok ++ b :: rest = (w :: tok ++ [b]) ++ rest.
Proof. simpl. rewrite <- app_assoc. reflexivity. Qed.

Section Candidates.
Variable r : rule.

Lemma forallb_elem (f : char -> bool) l x :
  forallb f l = true -> x ∈ l -> f x = true.
Proof.
  intros Hl Hx. apply list_elem_of_In in Hx.
  rewrite forallb_forall in Hl. auto.
Qed.

Lemma token_no_btick tok : rule_token r tok = true -> btick ∉ tok.
Proof.
  intros H Hin. apply rule_token_chars in H as [_ H].
  pose proof (forallb_elem _ _ _ H Hin) as Hb.
  rewrite rule_char_not_btick in Hb. discriminate.
Qed.

Lemma token_no_space tok x :
  rule_token r tok = true -> x ∈ tok -> isspace x = false.
Proof.
  intros H Hin. apply rule_token_chars in H as [_ H].
  eapply rule_char_not_space, forallb_elem; eauto.
Qed.

Lemma candidate_parts w tok b :
  candidate r w tok b = true ->
  isspace w = true /\ rule_token r tok = true /\ rule_boundary r b = true.
Proof.
  unfold candidate. intros H. apply andb_prop in H as [H Hb].
  apply andb_prop in H as [Hw Htok]. auto.
Qed.

(** The text of a candidate has no backtick. *)
Lemma candidate_no_btick w tok b :
  candidate r w tok b = true -> (btick ∉ tok ++ [b]) /\ w <> btick.
Proof.
  intros H. apply candidate_parts in H as (Hw & Htok & Hb). split.
  - rewrite not_elem_of_app. split; [apply token_no_btick, Htok|].
    intros Hin. apply list_elem_of_singleton in Hin. subst b.
    rewrite rule_boundary_not_btick in Hb. discriminate.
  - apply isspace_not_btick, Hw.
Qed.

(** A candidate behind [c] in the result was one in the original. *)
Lemma candidate_head_ins c s0 s0' :
  ins s0 s0' -> starts_candidate r (c :: s0') -> starts_candidate r (c :: s0).
Proof.
  intros Hins (w & tok & b & rest' & E & Hc). injection E as -> ->.
  destruct (candidate_no_btick _ _ _ Hc) as [Hnb _].
  change (tok ++ b :: rest') with (tok ++ [b] ++ rest') in Hins.
  rewrite app_assoc in Hins.
  destruct (ins_prefix _ _ _ Hnb Hins) as (rest & -> & _).
  exists w, tok, b, rest. rewrite <- app_assoc. auto.
Qed.

Lemma candidate_ins pre' t' s :
  ins s (pre' ++ t') -> starts_candidate r t' ->
  exists pre t, s = pre ++ t /\ starts_candidate r t /\ ins pre pre'.
Proof.
  intros Hins (w & tok & b & rest' & -> & Hc).
  destruct (candidate_no_btick _ _ _ Hc) as [Hnb Hw].
  rewrite window_eq in Hins.
  apply ins_window in Hins as (pre & post & -> & Hpre & _).
  - exists pre, ((w :: tok ++ [b]) ++ post).
    split; [reflexivity|]. split; [|exact Hpre].
    exists w, tok, b, post. split; [symmetry; apply window_eq|exact Hc].
  - apply not_elem_of_cons. split; [congruence|exact Hnb].
  - discriminate.
Qed.

(** Putting backticks in makes no candidate. *)
Lemma settled_ins s s' : ins s s' -> settled r s -> settled r s'.
Proof.
  intros Hins Hs pre' t' -> Hc.
  destruct (candidate_ins _ _ _ Hins Hc) as (pre & t & -> & Ht & _).
  exact (Hs pre t eq_refl Ht).
Qed.

(** And leaves every candidate behind a backtick, if they all were. *)
Lemma guarded_ins s s' : ins s s' -> guarded r s -> guarded r s'.
Proof.
  intros Hins Hg pre' t' -> Hc.
  destruct pre' as [|x pre0 _] using rev_ind.
  - destruct (candidate_ins [] _ _ Hins Hc) as (pre & t & -> & Ht & Hpre).
    inversion Hpre; subst.
    destruct (Hg [] t eq_refl Ht) as (p0 & Hp0). destruct p0; discriminate.
  - destruct (decide (x = btick)) as [->|Hx]; [eauto|].
    destruct Hc as (w & tok & b & rest' & -> & Hc).
    destruct (candidate_no_btick _ _ _ Hc) as [Hnb Hw].
    rewrite <- app_assoc, window_eq in Hins.
    change ([x] ++ (w :: tok ++ [b]) ++ rest')
      with ((x :: w :: tok ++ [b]) ++ rest') in Hins.
    apply ins_window in Hins as (pre & post & -> & _ & _).
    + destruct (Hg (pre ++ [x]) (w :: tok ++ b :: post)) as (p0 & Hp0).
      * simpl. rewrite <- !app_assoc. reflexivity.
      * exists w, tok, b, post. auto.
      * apply app_inj_tail in Hp0 as [_ ->]. done.
    + rewrite !not_elem_of_cons. repeat split; [congruence..|exact Hnb].
    + discriminate.
Qed.
End Candidates.

(** * What one substitution leaves for the next run *)

Section Passes.
Variable r : rule.

Abbreviation sub := (re_sub (rule_pattern r) wrap_repl).

(** Where a candidate can start in a wrapped match and what follows it:
    at the boundary character or behind it. *)
Lemma candidate_in_wrapped w tok b X pre' t' :
  candidate r w tok b = true ->
  pre' ++ t' = w :: btick :: tok ++ btick :: b :: X ->
  starts_candidate r t' ->
  (pre' = w :: btick :: tok ++ [btick] /\ t' = b :: X)
  \/ (exists p, pre' = w :: btick :: tok ++ btick :: b :: p /\ X = p ++ t').
Proof.
  intros Hc E Ht.
  apply candidate_parts in Hc as (Hw & Htok & Hb).
  assert (E' : pre' ++ t' = (w :: btick :: tok ++ [btick]) ++ b :: X).
  { rewrite E. simpl. rewrite <- app_assoc. reflexivity. }
  apply app_eq_app in E' as [l [[-> El]|[El ->]]].
  - destruct l as [|b' p].
    + left. rewrite app_nil_r. simpl in El. auto.
    + right. injection El as <- ->. exists p. split; [|reflexivity].
      simpl. rewrite <- app_assoc. reflexivity.
  - destruct l as [|x l].
    + left. rewrite app_nil_r in El. auto.
    + exfalso.
      apply starts_candidate_head in Ht as (w' & y & t'' & Et & Hw' & Hy).
      injection Et as -> Et.
      destruct pre' as [|p0 pre'].
      * injection El as -> <-. injection Et as <- _.
        rewrite rule_char_not_btick in Hy. discriminate.
      * injection El as _ El.
        assert (Hin : w' ∈ btick :: tok ++ [btick]).
        { rewrite El. apply elem_of_app. right. left. }
        rewrite elem_of_cons, elem_of_app, list_elem_of_singleton in Hin.
        destruct Hin as [->|[Hin| ->]]; try discriminate.
        rewrite (token_no_space _ _ _ Htok Hin) in Hw'. discriminate.
Qed.

(** After a substitution the candidates still there stand behind the
    closing backtick of the match that used up their whitespace. *)
Lemma guarded_sub s : guarded r (sub s).
Proof.
  induction s as [|c s Hc IH|w tok b rest Hc IH] using (scan_ind r).
  - rewrite re_sub_nil. intros pre t E Ht.
    symmetry in E. apply app_eq_nil in E as [_ ->].
    destruct (not_candidate_nil r Ht).
  - rewrite (re_sub_copy _ _ _ Hc). intros pre t E Ht.
    destruct pre as [|x pre].
    + simpl in E. subst t. destruct Hc.
      eapply candidate_head_ins; [|exact Ht].
      apply ticked_ins with r, re_sub_ticked.
    + injection E as _ E. destruct (IH pre t E Ht) as (p0 & ->).
      exists (x :: p0). reflexivity.
  - rewrite (re_sub_match _ _ _ _ _ Hc). intros pre t E Ht.
    symmetry in E.
    destruct (candidate_in_wrapped _ _ _ _ _ _ Hc E Ht)
      as [[-> _]|(p & -> & Ep)].
    + exists (w :: btick :: tok). reflexivity.
    + destruct (IH p t Ep Ht) as (p0 & ->).
      exists (w :: btick :: tok ++ btick :: b :: p0).
      simpl. rewrite <- app_assoc. reflexivity.
Qed.

(** When every candidate stands behind a backtick (here with the text
    [prev] before the subject), the substitution wraps them all. *)
Lemma settled_sub_ctx s :
  forall prev,
    (forall pre t, s = pre ++ t -> starts_candidate r t ->
       exists p0, prev ++ pre = p0 ++ [btick]) ->
    settled r (sub s).
Proof.
  pattern s. apply (scan_ind r); clear s;
    [|intros c s Hc IH|intros w tok b rest Hc IH]; intros prev Hg.
  - rewrite re_sub_nil. intros pre t E Ht.
    symmetry in E. apply app_eq_nil in E as [_ ->].
    destruct (not_candidate_nil r Ht).
  - rewrite (re_sub_copy _ _ _ Hc). intros pre t E Ht.
    destruct pre as [|x pre].
    + simpl in E. subst t. destruct Hc.
      eapply candidate_head_ins; [|exact Ht].
      apply ticked_ins with r, re_sub_ticked.
    + injection E as _ E. revert Ht. eapply (IH (prev ++ [c])); [|exact E].
      intros pre1 t1 -> Ht1.
      destruct (Hg (c :: pre1) t1 eq_refl Ht1) as (p0 & Hp0).
      exists p0. rewrite <- app_assoc. exact Hp0.
  - rewrite (re_sub_match _ _ _ _ _ Hc). intros pre t E Ht.
    symmetry in E.
    destruct (candidate_in_wrapped _ _ _ _ _ _ Hc E Ht)
      as [[-> ->]|(p & -> & Ep)].
    + assert (Hb : starts_candidate r (b :: rest)).
      { eapply candidate_head_ins; [|exact Ht].
        apply ticked_ins with r, re_sub_ticked. }
      destruct (Hg (w :: tok) (b :: rest)) as (p0 & Hp0);
        [reflexivity|exact Hb|].
      apply candidate_parts in Hc as (_ & Htok & _).
      pose proof (token_no_btick _ _ Htok) as Hnb.
      destruct (rule_token_chars _ _ Htok) as [Hne _].
      destruct tok as [|z tok0 _] using rev_ind; [done|].
      change (prev ++ w :: tok0 ++ [z])
        with (prev ++ (w :: tok0) ++ [z]) in Hp0.
      rewrite app_assoc in Hp0. apply app_inj_tail in Hp0 as [_ ->].
      apply Hnb, elem_of_app. right. left.
    + revert Ht. eapply (IH (prev ++ w :: tok ++ [b])); [|exact Ep].
      intros pre1 t1 -> Ht1.
      destruct (Hg (w :: tok ++ b :: pre1) t1) as (p0 & Hp0);
        [|exact Ht1|].
      { simpl. rewrite <- app_assoc. reflexivity. }
      exists p0. rewrite <- Hp0, <- app_assoc. simpl.
      rewrite <- app_assoc. reflexivity.
Qed.

Lemma settled_sub s : guarded r s -> settled r (sub s).
Proof. intros Hg. apply (settled_sub_ctx s []). exact Hg. Qed.

(** With no candidate the substitution changes nothing. *)
Lemma sub_settled s : settled r s -> sub s = s.
Proof.
  induction s as [|c s IH]; intros Hs; [apply re_sub_nil|].
  rewrite re_sub_copy; [|exact (Hs [] _ eq_refl)].
  f_equal. apply IH. intros pre t -> Ht. exact (Hs (c :: pre) t eq_refl Ht).
Qed.

Lemma sub_ins s : ins s (sub s).
Proof. apply ticked_ins with r, re_sub_ticked. Qed.
End Passes.

(** * Which tokens a substitution wraps *)

Lemma raws_app a b : raws (a ++ b) = raws a ++ raws b.
Proof. apply flat_map_app. Qed.

(** A cut between two segments is not inside a third. *)
Lemma seg_cuts A X B A' Y B' :
  A ++ X :: B = A' ++ Y :: B' ->
  (length (raws A) < length (raws A'))%nat ->
  (length (raws A) + length (raw X) <= length (raws A'))%nat.
Proof.
  revert A'. induction A as [|a A IH]; intros [|a' A'] E Hlt;
    simpl in *; try lia.
  - injection E as <- _. rewrite length_app. lia.
  - injection E as <- E. rewrite !length_app in *.
    assert (length (raws A) < length (raws A'))%nat as H by lia.
    specialize (IH _ E H). unfold raws in *. lia.
Qed.

(** Two stretches of one text that both begin with whitespace, have no
    other whitespace and end at the same place are one stretch. *)
Lemma same_stretch (p1 : str) w1 t1 p0 w0 t0 :
  p1 ++ w1 :: t1 = p0 ++ w0 :: t0 ->
  isspace w1 = true -> isspace w0 = true ->
  (forall x, x ∈ t1 -> isspace x = false) ->
  (forall x, x ∈ t0 -> isspace x = false) ->
  p1 = p0 /\ w1 = w0 /\ t1 = t0.
Proof.
  intros E H1 H0 Ht1 Ht0.
  apply app_eq_app in E as [l [[-> E]|[-> E]]]; destruct l as [|x l].
  - rewrite app_nil_r. injection E as -> ->. auto.
  - injection E as -> ->. rewrite Ht0 in H1; [discriminate|].
    apply elem_of_app. right. left.
  - rewrite app_nil_r. injection E as -> ->. auto.
  - injection E as -> ->. rewrite Ht1 in H0; [discriminate|].
    apply elem_of_app. right. left.
Qed.

Section Wrapped.
Variable r : rule.

Abbreviation P := (rule_pattern r).

(** The scan has no memory: behind any of its segments it is the scan of
    what is left. *)
Lemma scan_split s :
  forall segs1 segs2,
    scan P 0 s = segs1 ++ segs2 -> scan P 0 (raws segs2) = segs2.
Proof.
  pattern s. apply (scan_ind r); clear s;
    [|intros c s Hc IH|intros w tok b rest Hc IH]; intros segs1 segs2 E.
  - rewrite scan_nil in E. symmetry in E. apply app_eq_nil in E as [_ ->].
    apply scan_nil.
  - destruct segs1 as [|x segs1].
    + rewrite app_nil_l in E. subst segs2. rewrite raws_scan. reflexivity.
    + rewrite (scan_copy _ _ _ Hc) in E. injection E as _ E. eauto.
  - destruct segs1 as [|x segs1].
    + rewrite app_nil_l in E. subst segs2. rewrite raws_scan. reflexivity.
    + rewrite (scan_match _ _ _ _ _ Hc) in E. injection E as _ E. eauto.
Qed.

Lemma scan_head_match w tok b m g segs t :
  scan P 0 t = SMatch m g :: segs ->
  m = w :: tok ++ [b] -> g = match_groups w tok b ->
  candidate r w tok b = true /\ t = w :: tok ++ b :: raws segs.
Proof.
  intros E -> ->.
  destruct t as [|c t]; [rewrite scan_nil in E; discriminate|].
  destruct (starts_candidate_dec r (c :: t)) as [Hc|Hc].
  - destruct Hc as (w' & tok' & b' & rest' & Et & Hc).
    rewrite Et, (scan_match _ _ _ _ _ Hc) in E.
    assert (Em : w' :: tok' ++ [b'] = w :: tok ++ [b]) by congruence.
    assert (Es : scan P 0 rest' = segs) by congruence.
    injection Em as -> Em. apply app_inj_tail in Em as [-> ->].
    rewrite Et, <- Es, raws_scan. auto.
  - rewrite (scan_copy _ _ _ Hc) in E. discriminate.
Qed.

(** A wrapped token is a candidate of the rule, where the definition says
    it stands. *)
Lemma wrapped_candidate s pre w tok b post :
  wrapped P s pre w tok b post ->
  s = pre ++ w :: tok ++ b :: post /\ candidate r w tok b = true.
Proof.
  intros (segs1 & segs2 & E & <- & <-).
  pose proof (scan_split _ _ _ E) as E2.
  eapply scan_head_match in E2 as [Hc E2]; [|reflexivity..].
  split; [|exact Hc].
  rewrite <- (raws_scan r s), E, raws_app. f_equal.
  change (raws (SMatch (w :: tok ++ [b]) (match_groups w tok b) :: segs2))
    with ((w :: tok ++ [b]) ++ raws segs2).
  symmetry. apply window_eq.
Qed.

(** A place in the text before whitespace: the scan comes to it, or the
    match before has used that whitespace up. *)
Lemma scan_position s :
  forall pre t,
    s = pre ++ t ->
    (exists segs1, scan P 0 s = segs1 ++ scan P 0 t /\ raws segs1 = pre)
    \/ (exists segs1 w tok b segs2 m1 m2,
           scan P 0 s
           = segs1 ++ SMatch (w :: tok ++ [b]) (match_groups w tok b)
               :: segs2
           /\ candidate r w tok b = true
           /\ w :: tok ++ [b] = m1 ++ m2 /\ m1 <> [] /\ m2 <> []
           /\ pre = raws segs1 ++ m1 /\ t = m2 ++ raws segs2).
Proof.
  pattern s. apply (scan_ind r); clear s;
    [|intros c s Hc IH|intros w tok b rest Hc IH]; intros pre t E.
  - symmetry in E. apply app_eq_nil in E as [-> ->].
    left. exists []. auto.
  - destruct pre as [|x pre].
    + simpl in E. subst t. left. exists []. auto.
    + injection E as <- E. rewrite (scan_copy _ _ _ Hc).
      destruct (IH _ _ E) as [(segs1 & E1 & <-)
        |(segs1 & w & tok & b & segs2 & m1 & m2 & E1 & H1 & H2 & H3 & H4
          & -> & ->)].
      * left. exists (SLit c :: segs1). rewrite E1. auto.
      * right. exists (SLit c :: segs1), w, tok, b, segs2, m1, m2.
        rewrite E1. auto 10.
  - rewrite (scan_match _ _ _ _ _ Hc).
    rewrite window_eq in E. symmetry in E.
    apply app_eq_app in E as [l [[-> ->]|[E ->]]].
    + destruct (IH _ _ eq_refl) as [(segs1 & E1 & <-)
        |(segs1 & w' & tok' & b' & segs2 & m1 & m2 & E1 & H1 & H2 & H3 & H4
          & -> & E5)].
      * left.
        exists (SMatch (w :: tok ++ [b]) (match_groups w tok b) :: segs1).
        rewrite E1. auto.
      * right.
        exists (SMatch (w :: tok ++ [b]) (match_groups w tok b) :: segs1),
          w', tok', b', segs2, m1, m2.
        rewrite E1. repeat split; auto.
        change (raws (SMatch (w :: tok ++ [b]) (match_groups w tok b)
                        :: segs1))
          with ((w :: tok ++ [b]) ++ raws segs1).
        rewrite <- app_assoc. reflexivity.
    + destruct pre as [|x pre].
      * left. exists []. simpl in E. subst l. rewrite <- window_eq.
        rewrite (scan_match _ _ _ _ _ Hc). auto.
      * destruct l as [|y l].
        -- left.
           exists [SMatch (w :: tok ++ [b]) (match_groups w tok b)].
           rewrite app_nil_r in E. subst. simpl. rewrite app_nil_r. auto.
        -- right.
           exists [], w, tok, b, (scan P 0 rest), (x :: pre), (y :: l).
           rewrite raws_scan. repeat split; auto; discriminate.
Qed.

(** The same for a place where whitespace stands. *)
Lemma reached_or_consumed s pre w t :
  s = pre ++ w :: t -> isspace w = true ->
  (exists segs1, scan P 0 s = segs1 ++ scan P 0 (w :: t)
                 /\ raws segs1 = pre)
  \/ consumed P s pre.
Proof.
  intros E Hw.
  destruct (scan_position s pre (w :: t) E) as [H|
    (segs1 & w0 & tok0 & b0 & segs2 & m1 & m2 & E1 & Hc & Em & H1 & H2
     & -> & Et)]; [left; exact H|right].
  destruct m2 as [|x m2]; [done|]. injection Et as <- Et.
  destruct m1 as [|y m1]; [done|]. injection Em as <- Em.
  apply candidate_parts in Hc as (Hw0 & Htok0 & Hb0).
  destruct m2 as [|z m2 _] using rev_ind.
  - apply app_inj_tail in Em as [-> ->].
    exists (raws segs1), w0, m1, w, (raws segs2). split; [|reflexivity].
    exists segs1, segs2. auto.
  - change (m1 ++ w :: m2 ++ [z]) with (m1 ++ (w :: m2) ++ [z]) in Em.
    rewrite app_assoc in Em. apply app_inj_tail in Em as [-> _].
    rewrite (token_no_space r _ w Htok0) in Hw; [discriminate|].
    apply elem_of_app. right. left.
Qed.

(** The whitespace a match has used up starts no match. *)
Lemma wrapped_not_consumed s pre w tok b post :
  wrapped P s pre w tok b post -> ~ consumed P s pre.
Proof.
  intros (segs1 & segs2 & E & <- & <-)
         (pre0 & w0 & tok0 & b0 & post0 & (segs3 & segs4 & E' & <- & <-)
          & Epre).
  rewrite E' in E. apply seg_cuts in E.
  - rewrite Epre in E. simpl in E. rewrite !length_app in E. simpl in E.
    lia.
  - rewrite Epre, length_app. simpl. lia.
Qed.

(** A token is wrapped exactly when it is a candidate whose whitespace
    the match before has not used up. *)
Lemma wrapped_iff s pre w tok b post :
  wrapped P s pre w tok b post <->
  s = pre ++ w :: tok ++ b :: post /\ candidate r w tok b = true
  /\ ~ consumed P s pre.
Proof.
  split.
  - intros H. destruct (wrapped_candidate _ _ _ _ _ _ H) as [E Hc].
    repeat split; [exact E|exact Hc|].
    eapply wrapped_not_consumed, H.
  - intros (E & Hc & Hn).
    destruct (candidate_parts _ _ _ _ Hc) as (Hw & _ & _).
    destruct (reached_or_consumed _ _ _ _ E Hw) as [(segs1 & E1 & <-)|H];
      [|done].
    rewrite (scan_match _ _ _ _ _ Hc) in E1.
    exists segs1, (scan P 0 post). rewrite raws_scan. auto.
Qed.

(** Of two candidates that share their whitespace one is wrapped and one
    is not. *)
Lemma adjacent_candidates s pre w1 tok1 w2 tok2 b post :
  s = pre ++ w1 :: tok1 ++ w2 :: tok2 ++ b :: post ->
  candidate r w1 tok1 w2 = true ->
  candidate r w2 tok2 b = true ->
  (wrapped P s pre w1 tok1 w2 (tok2 ++ b :: post)
   <-> ~ wrapped P s (pre ++ w1 :: tok1) w2 tok2 b post).
Proof.
  intros E Hc1 Hc2.
  assert (E2 : s = (pre ++ w1 :: tok1) ++ w2 :: tok2 ++ b :: post).
  { rewrite E, <- app_assoc. reflexivity. }
  destruct (candidate_parts _ _ _ _ Hc1) as (Hw1 & Htok1 & _).
  destruct (candidate_parts _ _ _ _ Hc2) as (Hw2 & _ & _).
  split.
  - intros H1 H2. apply wrapped_not_consumed in H2. apply H2.
    exists pre, w1, tok1, w2, (tok2 ++ b :: post). auto.
  - intros Hn.
    destruct (reached_or_consumed _ _ _ _ E2 Hw2)
      as [(segs1 & E1 & Hpre)|H].
    + destruct Hn. rewrite (scan_match _ _ _ _ _ Hc2) in E1.
      exists segs1, (scan P 0 post). rewrite raws_scan. auto.
    + destruct H as (pre0 & w0 & tok0 & b0 & post0 & Hw & Epre).
      destruct (wrapped_candidate _ _ _ _ _ _ Hw) as [E0 Hc0].
      destruct (candidate_parts _ _ _ _ Hc0) as (Hw0 & Htok0 & _).
      apply same_stretch in Epre as (-> & -> & ->);
        eauto using token_no_space.
      rewrite E0 in E2. rewrite <- app_assoc in E2.
      apply app_inv_head in E2. injection E2 as E2.
      apply app_inv_head in E2. injection E2 as -> ->. exact Hw.
Qed.

(** The scan of a text up to a place it comes to is the scan of the text
    before that place. *)
Lemma scan_reached s :
  forall segs1 t,
    scan P 0 s = segs1 ++ scan P 0 t -> s = raws segs1 ++ t ->
    segs1 = scan P 0 (raws segs1).
Proof.
  pattern s. apply (scan_ind r); clear s;
    [|intros c s Hc IH|intros w tok b rest Hc IH]; intros segs1 t E Es.
  - symmetry in Es. apply app_eq_nil in Es as [Es _].
    rewrite Es, scan_nil. destruct segs1 as [|[c|m g] segs1];
      [reflexivity|discriminate|].
    rewrite scan_nil in E. discriminate.
  - destruct segs1 as [|x segs1]; [rewrite scan_nil; reflexivity|].
    rewrite (scan_copy _ _ _ Hc) in E. injection E as <- E.
    simpl in Es. injection Es as Es.
    change (raws (SLit c :: segs1)) with (c :: raws segs1).
    rewrite scan_copy, <- (IH _ _ E Es); [reflexivity|].
    intros (w' & tok' & b' & rest' & E' & Hc'). apply Hc.
    exists w', tok', b', (rest' ++ t). split; [|exact Hc'].
    rewrite Es. change (c :: raws segs1 ++ t) with ((c :: raws segs1) ++ t).
    rewrite E'. simpl. rewrite <- app_assoc. reflexivity.
  - destruct segs1 as [|x segs1]; [rewrite scan_nil; reflexivity|].
    rewrite (scan_match _ _ _ _ _ Hc) in E. injection E as <- E.
    change (raws (SMatch (w :: tok ++ [b]) (match_groups w tok b) :: segs1))
      with ((w :: tok ++ [b]) ++ raws segs1) in *.
    rewrite window_eq, <- app_assoc in Es. apply app_inv_head in Es.
    rewrite <- window_eq, (scan_match _ _ _ _ _ Hc), <- (IH _ _ E Es).
    reflexivity.
Qed.

(** What wrapping does to the text: the token gets its two backticks, and
    the text before and the text behind are substituted each on its own. *)
Lemma wrapped_output s pre w tok b post :
  wrapped P s pre w tok b post ->
  re_sub P wrap_repl s
  = re_sub P wrap_repl pre
      ++ w :: btick :: tok ++ btick :: b :: re_sub P wrap_repl post.
Proof.
  intros H. destruct (wrapped_candidate _ _ _ _ _ _ H) as [Es Hc].
  destruct H as (segs1 & segs2 & E & <- & <-).
  pose proof (scan_split _ _ _ E) as E2.
  change (raws (SMatch (w :: tok ++ [b]) (match_groups w tok b) :: segs2))
    with ((w :: tok ++ [b]) ++ raws segs2) in E2.
  rewrite <- window_eq in E2. rewrite <- E2 in E.
  pose proof (scan_reached _ _ _ E Es) as E1.
  rewrite (scan_match _ _ _ _ _ Hc) in E2. injection E2 as E2.
  unfold re_sub at 1. rewrite E, flat_map_app.
  fold (re_sub P wrap_repl (w :: tok ++ b :: raws segs2)).
  rewrite (re_sub_match _ _ _ _ _ Hc).
  unfold re_sub at 2. rewrite <- E1. reflexivity.
Qed.
End Wrapped.

(** * [fix_doc_line] as a whole *)

Lemma ticked_refl r s : ticked r s s.
Proof. induction s; constructor; assumption. Qed.

(** The line is left alone or goes through the three passes in order. *)
Lemma fix_doc_line_passes line :
  exists s1 s2,
    ticked CallLike line s1 /\ ticked SnakeCase s1 s2
    /\ ticked PascalCase s2 (fix_doc_line line).
Proof.
  unfold fix_doc_line.
  destruct (negb (startswith (lstrip line) (of_string "///"))).
  - exists line, line. split; [|split]; apply ticked_refl.
  - exists (re_sub pattern1 wrap_repl line),
      (re_sub pattern2 wrap_repl (re_sub pattern1 wrap_repl line)).
    split; [|split].
    + apply (re_sub_ticked CallLike).
    + apply (re_sub_ticked SnakeCase).
    + apply (re_sub_ticked PascalCase).
Qed.

Lemma fix_doc_line_ins line : ins line (fix_doc_line line).
Proof.
  destruct (fix_doc_line_passes line) as (s1 & s2 & H1 & H2 & H3).
  eapply ins_trans; [|eapply ticked_ins, H3].
  eapply ins_trans; eapply ticked_ins; eassumption.
Qed.

(** Putting backticks in changes no other character. *)
Lemma ins_filter s s' :
  ins s s' ->
  filter (fun c => c <> btick) s' = filter (fun c => c <> btick) s.
Proof.
  induction 1 as [|c s s' _ IH|s s' _ IH]; [reflexivity| |].
  - rewrite !filter_cons. destruct (decide (c <> btick)); congruence.
  - rewrite filter_cons_False; [exact IH|]. intros H. apply H. reflexivity.
Qed.

Lemma ins_count s s' (x : char) :
  ins s s' -> x <> btick ->
  count_occ N.eq_dec s' x = count_occ N.eq_dec s x.
Proof.
  intros H Hx. induction H as [|c s s' _ IH|s s' _ IH]; [reflexivity| |].
  - destruct (N.eq_dec c x) as [->|Hne].
    + rewrite !count_occ_cons_eq by reflexivity. rewrite IH. reflexivity.
    + rewrite !count_occ_cons_neq by assumption. exact IH.
  - rewrite count_occ_cons_neq by (intros E; apply Hx; symmetry; exact E).
    exact IH.
Qed.

Lemma ins_not_elem s s' (x : char) :
  ins s s' -> x <> btick -> x ∉ s -> x ∉ s'.
Proof.
  intros H Hx. induction H as [|c s s' _ IH|s s' _ IH]; [auto| |].
  - rewrite !not_elem_of_cons. intros [? ?]. auto.
  - rewrite not_elem_of_cons. auto.
Qed.

(** A pass keeps the last character last. *)
Lemma ticked_last r s s' :
  ticked r s s' ->
  forall u c, s = u ++ [c] -> exists u', s' = u' ++ [c] /\ ins u u'.
Proof.
  induction 1 as [|x s s' Ht IH|w tok b s s' Hc Ht IH]; intros u c E.
  - destruct u; discriminate.
  - destruct u as [|y u].
    + injection E as -> ->. inversion Ht; subst.
      exists []. split; [reflexivity|constructor].
    + injection E as <- ->. destruct (IH u c eq_refl) as (u' & -> & Hu).
      exists (x :: u'). split; [reflexivity|constructor; exact Hu].
  - destruct s as [|z s0 _] using rev_ind.
    + inversion Ht; subst.
      change (w :: tok ++ [b]) with ((w :: tok) ++ [b]) in E.
      apply app_inj_tail in E as [<- <-].
      exists (w :: btick :: tok ++ [btick]). split.
      * simpl. rewrite <- app_assoc. reflexivity.
      * apply ins_copy, ins_tick.
        rewrite <- (app_nil_r tok) at 1. apply ins_app; [apply ins_refl|].
        apply ins_tick, ins_nil.
    + rewrite window_eq, app_assoc in E. apply app_inj_tail in E as [<- <-].
      destruct (IH s0 z eq_refl) as (u' & -> & Hu).
      exists (w :: btick :: tok ++ btick :: b :: u'). split.
      * simpl. rewrite <- app_assoc. reflexivity.
      * rewrite <- window_eq. apply ins_copy, ins_tick.
        apply ins_app; [apply ins_refl|]. apply ins_tick, ins_copy, Hu.
Qed.

Lemma fix_doc_line_last u c :
  exists u', fix_doc_line (u ++ [c]) = u' ++ [c] /\ ins u u'.
Proof.
  destruct (fix_doc_line_passes (u ++ [c])) as (s1 & s2 & H1 & H2 & H3).
  destruct (ticked_last _ _ _ H1 u c eq_refl) as (u1 & -> & Hu1).
  destruct (ticked_last _ _ _ H2 u1 c eq_refl) as (u2 & -> & Hu2).
  destruct (ticked_last _ _ _ H3 u2 c eq_refl) as (u3 & -> & Hu3).
  exists u3. split; [reflexivity|]. eauto using ins_trans.
Qed.

Lemma fix_doc_line_unfold line :
  fix_doc_line line = if is_doc_line line then three_passes line else line.
Proof.
  unfold fix_doc_line, is_doc_line, three_passes.
  destruct (startswith (lstrip line) (of_string "///")); reflexivity.
Qed.

(** * Running the annotator again *)

Lemma three_passes_guarded s r : guarded r (three_passes s).
Proof.
  unfold three_passes. destruct r.
  - eapply guarded_ins; [apply (sub_ins PascalCase)|].
    eapply guarded_ins; [apply (sub_ins SnakeCase)|].
    apply (guarded_sub CallLike).
  - eapply guarded_ins; [apply (sub_ins PascalCase)|].
    apply (guarded_sub SnakeCase).
  - apply (guarded_sub PascalCase).
Qed.

Lemma three_passes_settled s :
  (forall r, guarded r s) -> forall r, settled r (three_passes s).
Proof.
  intros Hg r. unfold three_passes. destruct r.
  - eapply settled_ins; [apply (sub_ins PascalCase)|].
    eapply settled_ins; [apply (sub_ins SnakeCase)|].
    apply (settled_sub CallLike), Hg.
  - eapply settled_ins; [apply (sub_ins PascalCase)|].
    apply (settled_sub SnakeCase).
    eapply guarded_ins; [apply (sub_ins CallLike)|]. apply Hg.
  - apply (settled_sub PascalCase).
    eapply guarded_ins; [apply (sub_ins SnakeCase)|].
    eapply guarded_ins; [apply (sub_ins CallLike)|]. apply Hg.
Qed.

Lemma three_passes_fixed s : (forall r, settled r s) -> three_passes s = s.
Proof.
  intros Hs. unfold three_passes.
  change pattern1 with (rule_pattern CallLike).
  change pattern2 with (rule_pattern SnakeCase).
  change pattern3 with (rule_pattern PascalCase).
  rewrite (sub_settled CallLike s (Hs _)).
  rewrite (sub_settled SnakeCase s (Hs _)).
  apply (sub_settled PascalCase s (Hs _)).
Qed.

(** Two runs are enough: the third changes nothing. *)
Lemma fix_doc_line_third line :
  fix_doc_line (fix_doc_line (fix_doc_line line))
  = fix_doc_line (fix_doc_line line).
Proof.
  destruct (is_doc_line line) eqn:Hd.
  - rewrite (fix_doc_line_unfold line), Hd.
    set (a := three_passes line).
    assert (Ha : forall r, guarded r a) by (intro; apply three_passes_guarded).
    rewrite (fix_doc_line_unfold a).
    destruct (is_doc_line a) eqn:Hda.
    + set (b := three_passes a).
      assert (Hb : forall r, settled r b) by (apply three_passes_settled, Ha).
      rewrite (fix_doc_line_unfold b).
      destruct (is_doc_line b); [apply three_passes_fixed, Hb|reflexivity].
    + rewrite (fix_doc_line_unfold a), Hda. reflexivity.
  - assert (E : fix_doc_line line = line)
      by (rewrite fix_doc_line_unfold, Hd; reflexivity).
    rewrite !E. reflexivity.
Qed.

(** * Lines and files *)

Lemma fix_lines_from acc lines :
  foldl line_step acc lines
  = (acc.1 ++ map fix_doc_line lines, (acc.2 + changed_count lines)%nat).
Proof.
  revert acc. induction lines as [|l lines IH]; intros [nl n].
  - simpl. rewrite app_nil_r, Nat.add_0_r. reflexivity.
  - simpl foldl. rewrite IH. unfold line_step, changed_count. simpl.
    rewrite <- app_assoc. f_equal. rewrite filter_cons.
    destruct (decide (fix_doc_line l <> l)) as [H|H].
    + rewrite bool_decide_eq_true_2 by exact H. simpl. lia.
    + rewrite bool_decide_eq_false_2 by exact H. lia.
Qed.

(** The loop over the lines: every line through [fix_doc_line], and the
    changed ones counted. *)
Lemma fix_lines_spec lines :
  fix_lines lines = (map fix_doc_line lines, changed_count lines).
Proof. unfold fix_lines. rewrite fix_lines_from. reflexivity. Qed.

Lemma changed_count_zero lines :
  changed_count lines = 0%nat <->
  forall l, l ∈ lines -> fix_doc_line l = l.
Proof.
  unfold changed_count. induction lines as [|l lines IH].
  - split; [|reflexivity]. intros _ x Hx. inversion Hx.
  - rewrite filter_cons. destruct (decide (fix_doc_line l <> l)) as [Hl|Hl].
    + split; [discriminate|]. intros H. destruct Hl. apply H. left.
    + rewrite IH. split.
      * intros H x Hx. apply elem_of_cons in Hx as [->|Hx]; [|auto].
        destruct (decide (fix_doc_line l = l)); [assumption|done].
      * intros H x Hx. apply H. right. exact Hx.
Qed.

Lemma list_ind2 {X} (Q : list X -> Prop) :
  Q [] -> (forall a, Q [a]) ->
  (forall a b l, Q l -> Q (b :: l) -> Q (a :: b :: l)) ->
  forall l, Q l.
Proof.
  intros H0 H1 H2 l.
  assert (H : Q l /\ forall a, Q (a :: l)); [|apply H].
  induction l as [|b l [IH1 IH2]]; [auto|].
  split; [apply IH2|]. intros a. apply H2; auto.
Qed.

Lemma universal_newlines_no_cr s : CR ∉ universal_newlines s.
Proof.
  induction s as [|a|a b l IH1 IH2] using list_ind2.
  - apply not_elem_of_nil.
  - simpl. destruct (a =? CR) eqn:E.
    + intros H. apply list_elem_of_singleton in H. discriminate.
    + intros H. apply list_elem_of_singleton in H. subst a. discriminate.
  - change (universal_newlines (a :: b :: l))
      with (if a =? CR then
              if b =? LF then LF :: universal_newlines l
              else LF :: universal_newlines (b :: l)
            else a :: universal_newlines (b :: l)).
    destruct (a =? CR) eqn:Ea; [destruct (b =? LF)|];
      rewrite not_elem_of_cons; (split; [|assumption]).
    + discriminate.
    + discriminate.
    + intros <-. discriminate.
Qed.

Lemma universal_newlines_id s : CR ∉ s -> universal_newlines s = s.
Proof.
  induction s as [|c s IH]; [reflexivity|].
  rewrite not_elem_of_cons. intros [Hc Hs].
  simpl. destruct (c =? CR) eqn:E.
  - apply N.eqb_eq in E. congruence.
  - rewrite (IH Hs). reflexivity.
Qed.

Lemma write_translate_posix s : write_translate posix_linesep s = s.
Proof.
  unfold write_translate, posix_linesep.
  induction s as [|c s IH]; [reflexivity|].
  simpl. rewrite IH. destruct (c =? LF) eqn:E; [|reflexivity].
  apply N.eqb_eq in E. subst c. reflexivity.
Qed.

(** Written with CR LF and read again, a text without CR is itself. *)
Lemma write_translate_windows s :
  CR ∉ s -> universal_newlines (write_translate windows_linesep s) = s.
Proof.
  unfold write_translate, windows_linesep.
  induction s as [|c s IH]; [reflexivity|].
  rewrite not_elem_of_cons. intros [Hc Hs]. specialize (IH Hs).
  cbn [flat_map]. destruct (c =? LF) eqn:E.
  - apply N.eqb_eq in E. subst c. simpl. rewrite IH. reflexivity.
  - simpl. destruct (c =? CR) eqn:E2.
    + apply N.eqb_eq in E2. congruence.
    + rewrite IH. reflexivity.
Qed.

Lemma concat_readlines s : concat (readlines s) = s.
Proof.
  induction s as [|c s IH]; [reflexivity|].
  simpl. destruct (c =? LF).
  - simpl. rewrite IH. reflexivity.
  - destruct (readlines s) as [|l ls]; simpl in *; rewrite <- IH; reflexivity.
Qed.

Lemma one_line_split l :
  one_line l = true <-> exists u c, l = u ++ [c] /\ LF ∉ u.
Proof.
  split.
  - induction l as [|a l IH]; [discriminate|].
    destruct l as [|b l].
    + intros _. exists [], a. split; [reflexivity|apply not_elem_of_nil].
    + intros H. change (negb (a =? LF) && one_line (b :: l) = true) in H.
      apply andb_prop in H as [Ha Hl].
      destruct (IH Hl) as (u & c & E & Hu). rewrite E.
      exists (a :: u), c. split; [reflexivity|].
      rewrite not_elem_of_cons. split; [|exact Hu].
      intros <-. discriminate.
  - intros (u & c & -> & Hu). induction u as [|a u IH]; [reflexivity|].
    apply not_elem_of_cons in Hu as [Ha Hu]. specialize (IH Hu).
    simpl app. destruct (u ++ [c]) as [|b l] eqn:E.
    { destruct u; discriminate. }
    change (negb (a =? LF) && one_line (b :: l) = true).
    rewrite IH, andb_true_r. apply negb_true_iff, N.eqb_neq. congruence.
Qed.

Lemma ends_lf_snoc u c : ends_lf (u ++ [c]) = (c =? LF).
Proof. unfold ends_lf. by rewrite last_snoc. Qed.

(** [fix_doc_line] keeps a line one line, with its terminator or without. *)
Lemma fix_doc_line_one_line l :
  one_line l = true ->
  one_line (fix_doc_line l) = true /\ ends_lf (fix_doc_line l) = ends_lf l.
Proof.
  intros H. apply one_line_split in H as (u & c & -> & Hu).
  destruct (fix_doc_line_last u c) as (u' & -> & Hins).
  split; [|rewrite !ends_lf_snoc; reflexivity].
  apply one_line_split. exists u', c. split; [reflexivity|].
  eapply ins_not_elem; [exact Hins|discriminate|exact Hu].
Qed.

Lemma one_line_not_nil l : one_line l = true -> l <> [].
Proof. destruct l; [discriminate|discriminate]. Qed.

Lemma lines_ok_cons l ls :
  lines_ok (l :: ls)
  = one_line l && (match ls with [] => true | _ => ends_lf l && lines_ok ls end).
Proof.
  destruct ls; simpl.
  - rewrite andb_true_r. reflexivity.
  - rewrite andb_assoc. reflexivity.
Qed.

Lemma readlines_ok s : lines_ok (readlines s) = true.
Proof.
  induction s as [|c s IH]; [reflexivity|].
  simpl readlines. destruct (c =? LF) eqn:E.
  - rewrite lines_ok_cons, IH. unfold ends_lf. simpl. rewrite E.
    destruct (readlines s); reflexivity.
  - destruct (readlines s) as [|l ls]; [reflexivity|].
    rewrite lines_ok_cons in IH. apply andb_prop in IH as [Hl Hls].
    rewrite lines_ok_cons.
    assert (Hne : l <> []) by (apply one_line_not_nil, Hl).
    destruct l as [|b l]; [done|].
    change (one_line (c :: b :: l))
      with (negb (c =? LF) && one_line (b :: l)).
    rewrite E, Hl. simpl negb. simpl andb.
    destruct ls; [reflexivity|].
    apply andb_prop in Hls as [He Hls]. rewrite Hls, andb_true_r.
    unfold ends_lf in *. simpl last in *. exact He.
Qed.

Lemma readlines_one l : one_line l = true -> readlines l = [l].
Proof.
  induction l as [|c l IH]; [discriminate|].
  destruct l as [|b l].
  - intros _. simpl. destruct (c =? LF); reflexivity.
  - intros H. change (negb (c =? LF) && one_line (b :: l) = true) in H.
    apply andb_prop in H as [Hc Hl]. apply negb_true_iff in Hc.
    change (readlines (c :: b :: l))
      with (if c =? LF then [c] :: readlines (b :: l)
            else match readlines (b :: l) with
                 | [] => [[c]]
                 | l0 :: ls => (c :: l0) :: ls
                 end).
    rewrite Hc, (IH Hl). reflexivity.
Qed.

Lemma readlines_line_app l rest :
  one_line l = true -> ends_lf l = true ->
  readlines (l ++ rest) = l :: readlines rest.
Proof.
  induction l as [|c l IH]; [discriminate|].
  destruct l as [|b l].
  - intros _ H. unfold ends_lf in H. simpl in H. simpl. rewrite H. reflexivity.
  - intros H He. change (negb (c =? LF) && one_line (b :: l) = true) in H.
    apply andb_prop in H as [Hc Hl]. apply negb_true_iff in Hc.
    change (readlines ((c :: b :: l) ++ rest))
      with (if c =? LF then [c] :: readlines ((b :: l) ++ rest)
            else match readlines ((b :: l) ++ rest) with
                 | [] => [[c]]
                 | l0 :: ls => (c :: l0) :: ls
                 end).
    rewrite Hc, (IH Hl); [reflexivity|].
    unfold ends_lf in *. simpl last in *. exact He.
Qed.

(** Lines put together and cut again are the same lines. *)
Lemma readlines_concat ls : lines_ok ls = true -> readlines (concat ls) = ls.
Proof.
  induction ls as [|l ls IH]; [reflexivity|].
  rewrite lines_ok_cons. intros H. apply andb_prop in H as [Hl Hls].
  destruct ls as [|l2 ls].
  - simpl. rewrite app_nil_r. apply readlines_one, Hl.
  - apply andb_prop in Hls as [He Hls].
    change (concat (l :: l2 :: ls)) with (l ++ concat (l2 :: ls)).
    rewrite (readlines_line_app _ _ Hl He), (IH Hls). reflexivity.
Qed.

Lemma lines_ok_fix ls :
  lines_ok ls = true -> lines_ok (map fix_doc_line ls) = true.
Proof.
  induction ls as [|l ls IH]; [reflexivity|].
  rewrite lines_ok_cons. intros H. apply andb_prop in H as [Hl Hls].
  destruct (fix_doc_line_one_line l Hl) as [Hl' He'].
  change (map fix_doc_line (l :: ls))
    with (fix_doc_line l :: map fix_doc_line ls).
  rewrite lines_ok_cons, Hl'. destruct ls as [|l2 ls]; [reflexivity|].
  apply andb_prop in Hls as [He Hls].
  change (map fix_doc_line (l2 :: ls))
    with (fix_doc_line l2 :: map fix_doc_line ls) in *.
  rewrite He', He, (IH Hls). reflexivity.
Qed.

Lemma not_elem_concat (x : char) (ls : list str) :
  (forall l, l ∈ ls -> x ∉ l) -> x ∉ concat ls.
Proof.
  induction ls as [|l ls IH]; intros H; [apply not_elem_of_nil|].
  simpl. rewrite not_elem_of_app. split.
  - apply H. left.
  - apply IH. intros l' Hl'. apply H. right. exact Hl'.
Qed.

Lemma elem_concat (x : char) (ls : list str) l :
  l ∈ ls -> x ∈ l -> x ∈ concat ls.
Proof.
  induction ls as [|l0 ls IH]; intros Hl Hx; [inversion Hl|].
  simpl. apply elem_of_app. apply elem_of_cons in Hl as [->|Hl]; auto.
Qed.

(** What is written has no CR before the translation of the LFs. *)
Lemma fixed_text_no_cr s :
  CR ∉ s -> CR ∉ concat (map fix_doc_line (readlines s)).
Proof.
  intros Hs. apply not_elem_concat. intros l' Hl'.
  apply list_elem_of_fmap in Hl' as (l & -> & Hl).
  eapply ins_not_elem; [apply fix_doc_line_ins|discriminate|].
  intros Hx. apply Hs. rewrite <- (concat_readlines s).
  eapply elem_concat; eauto.
Qed.

(** * The driver *)

(** One file: nothing happens when no line changes, else the file is
    written, the report printed and the total raised. *)
Lemma process_file_spec linesep w file_path content :
  files w !! file_path = Some content ->
  process_file linesep w file_path
  = let lines := readlines (universal_newlines content) in
    let n := changed_count lines in
    let written :=
      write_translate linesep (concat (map fix_doc_line lines)) in
    Some (if (0 <? n)%nat then
            {| files := <[file_path := written]> (files w);
               trace := trace w ++ [EWrite file_path written;
                                    EPrint (report_line file_path n)];
               total_changes := (total_changes w + n)%nat |}
          else w).
Proof.
  intros H. unfold process_file. rewrite H, fix_lines_spec. simpl.
  destruct (0 <? changed_count _)%nat; reflexivity.
Qed.

Section Frame.
Variables (linesep : str) (q : string) (c : str).
Hypothesis Hq : changed_count (readlines (universal_newlines c)) = 0%nat.

Lemma process_file_untouched w p w' :
  process_file linesep w p = Some w' -> untouched q c w -> untouched q c w'.
Proof.
  intros H [Hf Ht]. unfold process_file in H.
  destruct (files w !! p) as [content|] eqn:Hp; [|discriminate].
  rewrite fix_lines_spec in H. simpl in H.
  destruct (0 <? _)%nat eqn:Hn; [|injection H as <-; split; assumption].
  injection H as <-.
  assert (Hne : p <> q).
  { intros ->. rewrite Hf in Hp. injection Hp as <-.
    rewrite Hq in Hn. discriminate. }
  split; simpl.
  - rewrite lookup_insert_ne by exact Hne. exact Hf.
  - intros e He. apply elem_of_app in He as [He|He]; [auto|].
    intros [x ->].
    rewrite elem_of_cons, list_elem_of_singleton in He.
    destruct He as [He|He]; [|discriminate]. congruence.
Qed.

Lemma process_files_untouched rust_files :
  forall w w',
    process_files linesep w rust_files = Some w' ->
    untouched q c w -> untouched q c w'.
Proof.
  induction rust_files as [|p rest IH]; intros w w' H Hw; simpl in H.
  - injection H as <-. exact Hw.
  - destruct (process_file linesep w p) as [w1|] eqn:H1; [|discriminate].
    eapply IH; [exact H|]. eapply process_file_untouched; eauto.
Qed.

Lemma main_untouched fs rust_files w' :
  main linesep fs rust_files = Some w' ->
  fs !! q = Some c -> untouched q c w'.
Proof.
  unfold main. intros H Hf.
  destruct (process_files _ _ _) as [w|] eqn:Hw; [|discriminate].
  injection H as <-.
  apply process_files_untouched in Hw as [Hf' Ht'].
  - split; simpl; [exact Hf'|].
    intros e He. apply elem_of_app in He as [He|He]; [auto|].
    apply list_elem_of_singleton in He as ->. intros [x Hx]. discriminate.
  - split; [exact Hf|]. simpl. intros e He. inversion He.
Qed.
End Frame.

(** The characters of a token start no match: the scan copies them. *)
Lemma re_sub_skip_token r tok rest :
  forallb (rule_char r) tok = true ->
  re_sub (rule_pattern r) wrap_repl (tok ++ rest)
  = tok ++ re_sub (rule_pattern r) wrap_repl rest.
Proof.
  induction tok as [|c tok IH]; [reflexivity|].
  intros H. simpl in H. apply andb_prop in H as [Hc H].
  simpl app. rewrite re_sub_copy, (IH H); [reflexivity|].
  intros Hs. apply starts_candidate_head in Hs as (w & y & t & E & Hw & _).
  injection E as -> _. apply rule_char_not_space in Hc. congruence.
Qed.

(** * The claims of the specification *)

(** C1.  The line [/// Call fish_add_path() to update the path.] comes back
    as [/// Call `fish_add_path()` to update the path.]: the first rule
    wraps [fish_add_path()] in one pair of backticks, and the second and
    third rules leave the result of the first as it is. *)
Theorem scenario_call_like_wrapped_once :
  let line := of_string "/// Call fish_add_path() to update the path." in
  let out := of_string "/// Call `fish_add_path()` to update the path." in
  fix_doc_line line = out
  /\ re_sub pattern1 wrap_repl line = out
  /\ re_sub pattern2 wrap_repl out = out
  /\ re_sub pattern3 wrap_repl out = out.
Proof. vm_compute. repeat split; reflexivity. Qed.

(** C2, as stated, fails: on [/// a foo_bar baz_qux.] the second run still
    changes the line the first run gave. *)
Lemma second_run_changes_line :
  let line := of_string "/// a foo_bar baz_qux." in
  fix_doc_line line = of_string "/// a `foo_bar` baz_qux."
  /\ fix_doc_line (fix_doc_line line) = of_string "/// a `foo_bar` `baz_qux`."
  /\ fix_doc_line (fix_doc_line line) <> fix_doc_line line.
Proof. vm_compute. repeat split; try reflexivity. discriminate. Qed.

(** C2, amended.  Two runs are enough: for every line the third application
    of [fix_doc_line] changes nothing any more, so after two runs over a
    file a further run counts no changed line. *)
Theorem third_run_changes_nothing :
  forall line lines,
    fix_doc_line (fix_doc_line (fix_doc_line line))
    = fix_doc_line (fix_doc_line line)
    /\ changed_count (map fix_doc_line (map fix_doc_line lines)) = 0%nat.
Proof.
  intros line lines. split; [apply fix_doc_line_third|].
  apply changed_count_zero. intros l Hl.
  apply list_elem_of_fmap in Hl as (l1 & -> & Hl).
  apply list_elem_of_fmap in Hl as (l0 & -> & _).
  apply fix_doc_line_third.
Qed.

(** C3, as stated, fails: in [/// a foo_bar baz_qux.] the token [baz_qux]
    has every property the claim asks for, whitespace before it and a period
    behind it, and the second rule does not wrap it; and in [/// x ___ y]
    the rule wraps the token [___], in which no underscore stands between
    two alphanumeric runs. *)
Lemma snake_candidate_left_unwrapped :
  let s := of_string "/// a foo_bar baz_qux." in
  let pre := of_string "/// a foo_bar" in
  let tok := of_string "baz_qux" in
  (s = pre ++ 32 :: tok ++ [46]
   /\ isspace 32 = true /\ snake_token tok = true /\ snake_boundary 46 = true
   /\ ~ wrapped pattern2 s pre 32 tok 46 []
   /\ re_sub pattern2 wrap_repl s = of_string "/// a `foo_bar` baz_qux.")
  /\ (wrapped pattern2 (of_string "/// x ___ y") (of_string "/// x") 32
         (of_string "___") 32 (of_string "y")
       /\ existsb alnum (of_string "___") = false
       /\ re_sub pattern2 wrap_repl (of_string "/// x ___ y")
          = of_string "/// x `___` y").
Proof.
  cbv zeta. split.
  - repeat split; try reflexivity.
    intros H. apply (wrapped_not_consumed SnakeCase) in H. apply H.
    exists (of_string "/// a"), 32, (of_string "foo_bar"), 32,
      (of_string "baz_qux.").
    split; [|reflexivity].
    exists (map SLit (of_string "/// a")),
      (scan pattern2 0 (of_string "baz_qux.")).
    split; [vm_compute; reflexivity|]. split; vm_compute; reflexivity.
  - split; [|split; vm_compute; reflexivity].
    exists (map SLit (of_string "/// x")), [SLit 121].
    split; [vm_compute; reflexivity|]. split; vm_compute; reflexivity.
Qed.

(** C3, amended.  The second rule wraps a token exactly when the token
    begins with a lowercase letter or an underscore, is made of lowercase
    letters, digits and underscores, has an underscore that is neither its
    first nor its last character, stands behind a whitespace character that
    the preceding match of the rule has not used up as its trailing
    boundary, and is followed by whitespace or one of [. , ; ) ]].  Wrapping
    puts one backtick before the token and one behind it, and
    [/// See also my_helper_fn for details.] becomes
    [/// See also `my_helper_fn` for details.]. *)
Theorem snake_rule_wraps_unconsumed_candidates :
  forall s pre w tok b post,
    (wrapped pattern2 s pre w tok b post <->
     s = pre ++ w :: tok ++ b :: post
     /\ isspace w = true /\ snake_token tok = true
     /\ snake_boundary b = true
     /\ ~ consumed pattern2 s pre)
    /\ (wrapped pattern2 s pre w tok b post ->
        re_sub pattern2 wrap_repl s
        = re_sub pattern2 wrap_repl pre
            ++ w :: btick :: tok ++ btick :: b
            :: re_sub pattern2 wrap_repl post)
    /\ fix_doc_line (of_string "/// See also my_helper_fn for details.")
       = of_string "/// See also `my_helper_fn` for details.".
Proof.
  intros s pre w tok b post. split; [|split].
  - rewrite (wrapped_iff SnakeCase). unfold candidate. simpl.
    rewrite !andb_true_iff. tauto.
  - apply (wrapped_output SnakeCase).
  - vm_compute. reflexivity.
Qed.

(** C4.  A line that, its leading whitespace dropped, does not begin with
    [///] comes back from [fix_doc_line] as it went in. *)
Theorem non_doc_line_unchanged :
  forall line,
    startswith (lstrip line) (of_string "///") = false ->
    fix_doc_line line = line.
Proof.
  intros line H. rewrite fix_doc_line_unfold. unfold is_doc_line.
  rewrite H. reflexivity.
Qed.

Lemma non_doc_line_unchanged_witness :
  let line := of_string "// This is not a doc comment with fish_add_path." in
  startswith (lstrip line) (of_string "///") = false
  /\ fix_doc_line line = line.
Proof.
  split; [reflexivity|]. apply non_doc_line_unchanged. reflexivity.
Defined.

(** C5, as stated, fails: in [/// a PathBuf OsString x] the token [OsString]
    begins with an uppercase letter, is made of letters, has two uppercase
    letters and a whitespace character on each side, and the third rule
    does not wrap it. *)
Lemma pascal_candidate_left_unwrapped :
  let s := of_string "/// a PathBuf OsString x" in
  let pre := of_string "/// a PathBuf" in
  let tok := of_string "OsString" in
  s = pre ++ 32 :: tok ++ 32 :: of_string "x"
  /\ isspace 32 = true /\ pascal_token tok = true
  /\ ~ wrapped pattern3 s pre 32 tok 32 (of_string "x")
  /\ re_sub pattern3 wrap_repl s = of_string "/// a `PathBuf` OsString x".
Proof.
  cbv zeta. repeat split; try reflexivity.
  intros H. apply (wrapped_not_consumed PascalCase) in H. apply H.
  exists (of_string "/// a"), 32, (of_string "PathBuf"), 32,
    (of_string "OsString x").
  split; [|reflexivity].
  exists (map SLit (of_string "/// a")),
    (scan pattern3 0 (of_string "OsString x")).
  repeat split; vm_compute; reflexivity.
Qed.

(** C5, amended.  The third rule wraps a token exactly when the token begins
    with an uppercase ASCII letter, is made of ASCII letters and digits, has
    a second uppercase letter, has one whitespace character behind it, and
    stands behind a whitespace character that the preceding match of the
    rule has not used up as its trailing boundary.  The line
    [/// A Name is simple.] comes back unchanged: [Name] has one uppercase
    letter. *)
Theorem pascal_rule_wraps_unconsumed_candidates :
  forall s pre w tok b post,
    (wrapped pattern3 s pre w tok b post <->
     s = pre ++ w :: tok ++ b :: post
     /\ isspace w = true /\ pascal_token tok = true /\ isspace b = true
     /\ ~ consumed pattern3 s pre)
    /\ (wrapped pattern3 s pre w tok b post ->
        re_sub pattern3 wrap_repl s
        = re_sub pattern3 wrap_repl pre
            ++ w :: btick :: tok ++ btick :: b
            :: re_sub pattern3 wrap_repl post)
    /\ pascal_token (of_string "Name") = false
    /\ fix_doc_line (of_string "/// A Name is simple.")
       = of_string "/// A Name is simple.".
Proof.
  intros s pre w tok b post. split; [|split; [|split]].
  - rewrite (wrapped_iff PascalCase). unfold candidate. simpl.
    rewrite !andb_true_iff. tauto.
  - apply (wrapped_output PascalCase).
  - reflexivity.
  - vm_compute. reflexivity.
Qed.

(** C6.  Boundary exactness.  Each substitution is a pass in which
    characters are copied and, around matched tokens, a backtick is put
    right behind the whitespace before the token and right before the
    boundary character behind it, both of which stay as they are; the line
    [fix_doc_line] returns comes from its input by three such passes, and
    the two are the same once the backticks are left out. *)
Theorem boundary_exactness :
  forall line,
    (forall r s, ticked r s (re_sub (rule_pattern r) wrap_repl s))
    /\ (exists s1 s2,
           ticked CallLike line s1 /\ ticked SnakeCase s1 s2
           /\ ticked PascalCase s2 (fix_doc_line line))
    /\ filter (fun c => c <> btick) (fix_doc_line line)
       = filter (fun c => c <> btick) line.
Proof.
  intros line. split; [|split].
  - intros r s. apply re_sub_ticked.
  - apply fix_doc_line_passes.
  - apply ins_filter, fix_doc_line_ins.
Qed.

(** C7.  The lines the loop builds are as many as the lines read, in the
    same order, each the image of its input line; [fix_doc_line] adds
    backticks only, so no line terminator comes or goes; and the text
    written, read again, gives those very lines. *)
Theorem line_count_and_order_preserved :
  forall content linesep,
    linesep = posix_linesep \/ linesep = windows_linesep ->
    let lines := readlines (universal_newlines content) in
    let new_lines := (fix_lines lines).1 in
    length new_lines = length lines
    /\ (forall i, new_lines !! i = fix_doc_line <$> lines !! i)
    /\ (forall line x, x <> btick ->
          count_occ N.eq_dec (fix_doc_line line) x
          = count_occ N.eq_dec line x)
    /\ readlines
         (universal_newlines (write_translate linesep (concat new_lines)))
       = new_lines.
Proof.
  intros content linesep Hsep lines new_lines.
  assert (E : new_lines = map fix_doc_line lines).
  { unfold new_lines. rewrite fix_lines_spec. reflexivity. }
  rewrite E. split; [apply length_map|]. split; [apply list_lookup_fmap|].
  split; [intros line x Hx; apply ins_count; auto using fix_doc_line_ins|].
  assert (Hcr : CR ∉ concat (map fix_doc_line lines)).
  { apply fixed_text_no_cr, universal_newlines_no_cr. }
  assert (Hrt : universal_newlines
                  (write_translate linesep (concat (map fix_doc_line lines)))
                = concat (map fix_doc_line lines)).
  { destruct Hsep as [->| ->].
    - rewrite write_translate_posix. apply universal_newlines_id, Hcr.
    - apply write_translate_windows, Hcr. }
  rewrite Hrt. apply readlines_concat, lines_ok_fix, readlines_ok.
Qed.

Lemma line_count_and_order_preserved_witness :
  let content :=
    of_string "/// Call foo() now" ++ [CR; LF] ++ of_string "fn foo() {}" in
  let lines := readlines (universal_newlines content) in
  let new_lines := (fix_lines lines).1 in
  (posix_linesep = posix_linesep \/ posix_linesep = windows_linesep)
  /\ length new_lines = length lines
  /\ readlines
       (universal_newlines
          (write_translate posix_linesep (concat new_lines)))
     = new_lines.
Proof.
  intros content lines new_lines.
  pose proof (line_count_and_order_preserved content posix_linesep
                (or_introl eq_refl)) as (H1 & _ & _ & H4).
  split; [left; reflexivity|]. split; [exact H1|exact H4].
Defined.

(** C8, as stated, fails: a file with CR LF line ends, rewritten where
    [os.linesep] is LF, has LF line ends. *)
Lemma crlf_file_rewritten_with_lf :
  let content :=
    of_string "/// Call foo() now" ++ [CR; LF]
    ++ of_string "fn foo() {}" ++ [CR; LF] in
  let written :=
    of_string "/// Call `foo()` now" ++ [LF]
    ++ of_string "fn foo() {}" ++ [LF] in
  let w := {| files := {[ "a.rs"%string := content ]};
              trace := []; total_changes := 0 |} in
  exists w',
    process_file posix_linesep w "a.rs" = Some w'
    /\ files w' !! "a.rs"%string = Some written
    /\ (CR ∈ content) /\ (CR ∉ written).
Proof.
  cbv zeta. eexists. split; [vm_compute; reflexivity|].
  split; [vm_compute; reflexivity|]. split.
  - apply elem_of_app. right. left.
  - apply (bool_decide_unpack _). vm_compute. exact I.
Qed.

(** C8, amended.  The rewritten file has the line ends of the platform, not
    those of the input: the text is read with universal newlines, so it has
    no CR when it is written, its lines are the images of the lines read,
    and each LF leaves as [os.linesep]; where that is LF the text is written
    as it is, and the line ends of the input are kept when the input had no
    CR. *)
Theorem rewritten_file_uses_platform_linesep :
  forall linesep w file_path content w',
    files w !! file_path = Some content ->
    process_file linesep w file_path = Some w' ->
    changed_count (readlines (universal_newlines content)) <> 0%nat ->
    exists t,
      files w' !! file_path = Some (write_translate linesep t)
      /\ (CR ∉ t)
      /\ readlines t
         = map fix_doc_line (readlines (universal_newlines content))
      /\ write_translate posix_linesep t = t
      /\ (CR ∉ content ->
          readlines t = map fix_doc_line (readlines content)).
Proof.
  intros linesep w p content w' Hf Hp Hn.
  rewrite (process_file_spec _ _ _ _ Hf) in Hp. cbv zeta in Hp.
  destruct (0 <? _)%nat eqn:E; [|apply Nat.ltb_ge in E; lia].
  injection Hp as <-. eexists. split; [apply lookup_insert_eq|].
  split; [apply fixed_text_no_cr, universal_newlines_no_cr|].
  split; [apply readlines_concat, lines_ok_fix, readlines_ok|].
  split; [apply write_translate_posix|].
  intros Hcr. rewrite (universal_newlines_id _ Hcr).
  apply readlines_concat, lines_ok_fix, readlines_ok.
Qed.

Lemma rewritten_file_uses_platform_linesep_witness :
  let content := of_string "/// Call foo() now" ++ [LF] in
  let w := {| files := {[ "a.rs"%string := content ]};
              trace := []; total_changes := 0 |} in
  let w' := {| files :=
                 {[ "a.rs"%string := of_string "/// Call `foo()` now" ++ [LF] ]};
               trace :=
                 [EWrite "a.rs" (of_string "/// Call `foo()` now" ++ [LF]);
                  EPrint (report_line "a.rs" 1)];
               total_changes := 1 |} in
  files w !! "a.rs"%string = Some content
  /\ process_file posix_linesep w "a.rs" = Some w'
  /\ changed_count (readlines (universal_newlines content)) <> 0%nat
  /\ exists t,
       files w' !! "a.rs"%string = Some (write_translate posix_linesep t)
       /\ (CR ∉ t).
Proof.
  intros content w w'.
  assert (H1 : files w !! "a.rs"%string = Some content) by reflexivity.
  assert (H2 : process_file posix_linesep w "a.rs" = Some w')
    by (vm_compute; reflexivity).
  assert (H3 : changed_count (readlines (universal_newlines content))
               <> 0%nat) by (vm_compute; discriminate).
  split; [exact H1|]. split; [exact H2|]. split; [exact H3|].
  destruct (rewritten_file_uses_platform_linesep _ _ _ _ _ H1 H2 H3)
    as (t & Ht & Hcr & _).
  exists t. split; [exact Ht|exact Hcr].
Defined.

(** C9.  A file no line of which [fix_doc_line] changes is left as it is:
    processing it changes nothing at all, and after the whole run it has its
    content and no event has written it.  A file with changed lines is
    written once, with the images of its lines, and the line printed for it
    gives the number of its changed lines; the other files stay as they
    are. *)
Theorem file_written_only_when_changed :
  (forall linesep w file_path content w',
      files w !! file_path = Some content ->
      process_file linesep w file_path = Some w' ->
      let lines := readlines (universal_newlines content) in
      let written :=
        write_translate linesep (concat (map fix_doc_line lines)) in
      ((forall l, l ∈ lines -> fix_doc_line l = l) -> w' = w)
      /\ ((exists l, l ∈ lines /\ fix_doc_line l <> l) ->
          files w' = <[file_path := written]> (files w)
          /\ trace w'
             = trace w ++ [EWrite file_path written;
                           EPrint (report_line file_path
                                     (changed_count lines))]
          /\ total_changes w'
             = (total_changes w + changed_count lines)%nat)
      /\ (forall other, other <> file_path ->
            files w' !! other = files w !! other))
  /\ (forall linesep fs rust_files w' file_path content,
         main linesep fs rust_files = Some w' ->
         fs !! file_path = Some content ->
         (forall l, l ∈ readlines (universal_newlines content) ->
                    fix_doc_line l = l) ->
         files w' !! file_path = Some content
         /\ forall e, e ∈ trace w' -> ~ writes_to file_path e).
Proof.
  split.
  - intros linesep w p content w' Hf Hp lines written.
    rewrite (process_file_spec _ _ _ _ Hf) in Hp. cbv zeta in Hp.
    fold lines in Hp. fold written in Hp.
    destruct (0 <? changed_count lines)%nat eqn:E; injection Hp as <-.
    + apply Nat.ltb_lt in E. split; [|split].
      * intros H. apply changed_count_zero in H. lia.
      * intros _. simpl. auto.
      * intros other Hne. simpl. apply lookup_insert_ne. congruence.
    + apply Nat.ltb_ge in E. split; [|split]; [reflexivity| |reflexivity].
      intros (l & Hl & Hne). exfalso.
      assert (H0 : changed_count lines = 0%nat) by lia.
      apply Hne. exact (proj1 (changed_count_zero lines) H0 l Hl).
  - intros linesep fs rust_files w' p content Hmain Hf Hfix.
    apply changed_count_zero in Hfix.
    exact (main_untouched linesep p content Hfix _ _ _ Hmain Hf).
Qed.

Lemma file_written_only_when_changed_witness :
  let fs : gmap string str :=
    {[ "a.rs"%string := of_string "/// Call foo() now" ++ [LF];
       "b.rs"%string := of_string "fn foo() {}" ++ [LF] ]} in
  let w := {| files := fs; trace := []; total_changes := 0 |} in
  files w !! "b.rs"%string = Some (of_string "fn foo() {}" ++ [LF])
  /\ process_file posix_linesep w "b.rs" = Some w
  /\ (exists w', main posix_linesep fs ["a.rs"; "b.rs"]%string = Some w'
                 /\ files w' !! "b.rs"%string
                    = Some (of_string "fn foo() {}" ++ [LF])
                 /\ forall e, e ∈ trace w' -> ~ writes_to "b.rs" e).
Proof.
  intros fs w.
  assert (H1 : files w !! "b.rs"%string
               = Some (of_string "fn foo() {}" ++ [LF])) by reflexivity.
  assert (H2 : process_file posix_linesep w "b.rs" = Some w)
    by (vm_compute; reflexivity).
  assert (H3 : forall l,
             l ∈ readlines (universal_newlines
                              (of_string "fn foo() {}" ++ [LF])) ->
             fix_doc_line l = l).
  { intros l Hl. apply list_elem_of_singleton in Hl. subst l.
    vm_compute. reflexivity. }
  split; [exact H1|]. split; [exact H2|].
  destruct (main posix_linesep fs ["a.rs"; "b.rs"]%string) as [w'|] eqn:Hm;
    [|vm_compute in Hm; discriminate].
  exists w'. split; [reflexivity|].
  exact (proj2 file_written_only_when_changed _ _ _ _ _ _ Hm H1 H3).
Defined.

(** C10, as stated, fails: in [/// a foo_bar baz_qux zip_zap.] the tokens
    [baz_qux] and [zip_zap] are two candidates of the second rule with one
    whitespace character between them, and of the two it is the second that
    is wrapped, the first having lost its whitespace to [foo_bar]. *)
Lemma second_of_three_skipped_third_wrapped :
  let s := of_string "/// a foo_bar baz_qux zip_zap." in
  let pre := of_string "/// a foo_bar" in
  let tok1 := of_string "baz_qux" in
  let tok2 := of_string "zip_zap" in
  s = pre ++ 32 :: tok1 ++ 32 :: tok2 ++ [46]
  /\ candidate SnakeCase 32 tok1 32 = true
  /\ candidate SnakeCase 32 tok2 46 = true
  /\ ~ wrapped pattern2 s pre 32 tok1 32 (tok2 ++ [46])
  /\ wrapped pattern2 s (pre ++ 32 :: tok1) 32 tok2 46 []
  /\ re_sub pattern2 wrap_repl s
     = of_string "/// a `foo_bar` baz_qux `zip_zap`.".
Proof.
  cbv zeta. split; [reflexivity|]. split; [reflexivity|].
  split; [reflexivity|]. split; [|split].
  - intros H. apply (wrapped_not_consumed SnakeCase) in H. apply H.
    exists (of_string "/// a"), 32, (of_string "foo_bar"), 32,
      (of_string "baz_qux zip_zap.").
    split; [|reflexivity].
    exists (map SLit (of_string "/// a")),
      (scan pattern2 0 (of_string "baz_qux zip_zap.")).
    split; [vm_compute; reflexivity|]. split; vm_compute; reflexivity.
  - exists (map SLit (of_string "/// a")
            ++ SMatch (32 :: of_string "foo_bar" ++ [32])
                 (match_groups 32 (of_string "foo_bar") 32)
               :: map SLit (of_string "baz_qux")), [].
    split; [vm_compute; reflexivity|]. split; vm_compute; reflexivity.
  - vm_compute. reflexivity.
Qed.

(** C10, amended.  In one substitution, of two candidates of the rule that
    share one whitespace character exactly one is wrapped: the first, unless
    the match before it has used up the whitespace before it, and then the
    second.  When the first is wrapped the shared whitespace is its trailing
    boundary, the second token is copied as it is and the scan goes on at
    the boundary behind the second; so [/// a foo_bar baz_qux.] gives
    [/// a `foo_bar` baz_qux.]. *)
Theorem shared_whitespace_one_of_two_wrapped :
  forall r s pre w1 tok1 w2 tok2 b post,
    s = pre ++ w1 :: tok1 ++ w2 :: tok2 ++ b :: post ->
    candidate r w1 tok1 w2 = true ->
    candidate r w2 tok2 b = true ->
    (wrapped (rule_pattern r) s pre w1 tok1 w2 (tok2 ++ b :: post)
     <-> ~ wrapped (rule_pattern r) s (pre ++ w1 :: tok1) w2 tok2 b post)
    /\ (wrapped (rule_pattern r) s pre w1 tok1 w2 (tok2 ++ b :: post)
        <-> ~ consumed (rule_pattern r) s pre)
    /\ (wrapped (rule_pattern r) s pre w1 tok1 w2 (tok2 ++ b :: post) ->
        re_sub (rule_pattern r) wrap_repl s
        = re_sub (rule_pattern r) wrap_repl pre
            ++ w1 :: btick :: tok1 ++ btick :: w2 :: tok2
            ++ re_sub (rule_pattern r) wrap_repl (b :: post))
    /\ re_sub pattern2 wrap_repl (of_string "/// a foo_bar baz_qux.")
       = of_string "/// a `foo_bar` baz_qux.".
Proof.
  intros r s pre w1 tok1 w2 tok2 b post E Hc1 Hc2.
  split; [|split; [|split]].
  - apply adjacent_candidates; assumption.
  - rewrite wrapped_iff. tauto.
  - intros H. rewrite (wrapped_output _ _ _ _ _ _ _ H).
    rewrite re_sub_skip_token; [reflexivity|].
    apply candidate_parts in Hc2 as (_ & Htok & _).
    apply rule_token_chars, Htok.
  - vm_compute. reflexivity.
Qed.

Lemma shared_whitespace_one_of_two_wrapped_witness :
  let s := of_string "/// a foo_bar baz_qux." in
  let pre := of_string "/// a" in
  let tok1 := of_string "foo_bar" in
  let tok2 := of_string "baz_qux" in
  s = pre ++ 32 :: tok1 ++ 32 :: tok2 ++ 46 :: []
  /\ candidate SnakeCase 32 tok1 32 = true
  /\ candidate SnakeCase 32 tok2 46 = true
  /\ (wrapped pattern2 s pre 32 tok1 32 (tok2 ++ [46])
      <-> ~ wrapped pattern2 s (pre ++ 32 :: tok1) 32 tok2 46 []).
Proof.
  intros s pre tok1 tok2.
  assert (H1 : s = pre ++ 32 :: tok1 ++ 32 :: tok2 ++ 46 :: [])
    by reflexivity.
  assert (H2 : candidate SnakeCase 32 tok1 32 = true) by reflexivity.
  assert (H3 : candidate SnakeCase 32 tok2 46 = true) by reflexivity.
  split; [exact H1|]. split; [exact H2|]. split; [exact H3|].
  exact (proj1 (shared_whitespace_one_of_two_wrapped
                  SnakeCase s pre 32 tok1 32 tok2 46 [] H1 H2 H3)).
Defined.


(** * Further properties of the code *)

(** ** The first rule *)

Lemma call_token_shape tok :
  call_token tok = true <->
  exists c u, tok = c :: u ++ of_string "()"
              /\ ident_start c = true /\ forallb ident_char u = true.
Proof.
  split.
  - destruct tok as [|c t]; [discriminate|]. intros H.
    apply andb_prop in H as [Hc Ht].
    apply ends_call_split in Ht as (u & -> & Hu). exists c, u. auto.
  - intros (c & u & -> & Hc & Hu). simpl. rewrite Hc.
    apply ends_call_split. exists u. auto.
Qed.

(** X1.  The first rule wraps a token exactly when the token is an
    identifier (an ASCII letter or underscore, then letters, digits and
    underscores) with [()] behind it, has one whitespace character behind
    it, and stands behind a whitespace character that the preceding match
    of the rule has not used up; wrapping puts one backtick before the
    token and one behind the [()]. *)
Theorem call_rule_wraps_unconsumed_candidates :
  forall s pre w tok b post,
    (wrapped pattern1 s pre w tok b post <->
     s = pre ++ w :: tok ++ b :: post
     /\ isspace w = true
     /\ (exists c u, tok = c :: u ++ of_string "()"
                     /\ ident_start c = true /\ forallb ident_char u = true)
     /\ isspace b = true
     /\ ~ consumed pattern1 s pre)
    /\ (wrapped pattern1 s pre w tok b post ->
        re_sub pattern1 wrap_repl s
        = re_sub pattern1 wrap_repl pre
            ++ w :: btick :: tok ++ btick :: b
            :: re_sub pattern1 wrap_repl post).
Proof.
  intros s pre w tok b post. split.
  - rewrite (wrapped_iff CallLike), <- call_token_shape.
    unfold candidate. simpl. rewrite !andb_true_iff. tauto.
  - apply (wrapped_output CallLike).
Qed.

(** ** No text is a candidate of two rules *)

Lemma longest_run (f : char -> bool) u1 x1 r1 u2 x2 r2 :
  u1 ++ x1 :: r1 = u2 ++ x2 :: r2 ->
  forallb f u1 = true -> forallb f u2 = true ->
  f x1 = false -> f x2 = false ->
  u1 = u2 /\ x1 = x2 /\ r1 = r2.
Proof.
  intros E H1 H2 Hx1 Hx2.
  apply app_eq_app in E as [l [[-> E]|[-> E]]]; destruct l as [|y l].
  - rewrite app_nil_r. injection E as -> ->. auto.
  - injection E as -> ->. rewrite forallb_app in H1.
    apply andb_prop in H1 as [_ H1]. simpl in H1. rewrite Hx2 in H1.
    discriminate.
  - rewrite app_nil_r. injection E as -> ->. auto.
  - injection E as -> ->. rewrite forallb_app in H2.
    apply andb_prop in H2 as [_ H2]. simpl in H2. rewrite Hx1 in H2.
    discriminate.
Qed.

Lemma call_candidate_run w tok b :
  candidate CallLike w tok b = true ->
  exists c u, tok = c :: u ++ [40; 41] /\ forallb ident_char (c :: u) = true.
Proof.
  intros H. apply candidate_parts in H as (_ & H & _).
  apply call_token_shape in H as (c & u & -> & Hc & Hu).
  exists c, u. split; [reflexivity|]. simpl. rewrite Hu, andb_true_r.
  char_arith.
Qed.

Lemma candidate_rules_differ w tok1 b1 rest1 tok2 b2 rest2 r :
  r <> CallLike ->
  candidate CallLike w tok1 b1 = true ->
  candidate r w tok2 b2 = true ->
  tok1 ++ b1 :: rest1 = tok2 ++ b2 :: rest2 -> False.
Proof.
  intros Hr H1 H2 E.
  apply call_candidate_run in H1 as (c & u & -> & Hu).
  apply candidate_parts in H2 as (_ & Htok2 & Hb2).
  apply rule_token_chars in Htok2 as [_ Htok2].
  assert (Hid : forallb ident_char tok2 = true).
  { revert Htok2. apply forallb_impl. intros x Hx.
    destruct r; [done| |]; char_arith. }
  assert (Hb : ident_char b2 = false) by (destruct r; [done| |]; char_arith).
  replace ((c :: u ++ [40; 41]) ++ b1 :: rest1)
    with ((c :: u) ++ 40 :: (41 :: b1 :: rest1)) in E
    by (simpl; rewrite <- app_assoc; reflexivity).
  apply (longest_run ident_char) in E as (_ & <- & _); auto.
  destruct r; [done| |]; discriminate.
Qed.

(** X2.  At one place of a text at most one of the three patterns matches:
    no token is a candidate of two rules. *)
Theorem candidate_of_one_rule :
  forall r1 r2 t,
    starts_candidate r1 t -> starts_candidate r2 t -> r1 = r2.
Proof.
  intros r1 r2 t (w1 & tok1 & b1 & rest1 & E1 & H1)
         (w2 & tok2 & b2 & rest2 & E2 & H2).
  rewrite E1 in E2. injection E2 as <- E.
  destruct r1, r2; try reflexivity; exfalso.
  - eapply (candidate_rules_differ _ _ _ _ _ _ _ SnakeCase); eauto; done.
  - eapply (candidate_rules_differ _ _ _ _ _ _ _ PascalCase); eauto; done.
  - eapply (candidate_rules_differ _ _ _ _ _ _ _ SnakeCase); eauto; done.
  - apply candidate_parts in H1 as (_ & H1 & _).
    apply candidate_parts in H2 as (_ & H2 & _).
    destruct tok1 as [|c1 t1]; [discriminate|].
    destruct tok2 as [|c2 t2]; [discriminate|].
    injection E as -> _. simpl in H1, H2.
    unfold snake_token in H1. unfold pascal_token in H2.
    rewrite <- andb_assoc in H1, H2.
    apply andb_prop in H1 as [H1 _]. apply andb_prop in H2 as [H2 _].
    char_arith.
  - eapply (candidate_rules_differ _ _ _ _ _ _ _ PascalCase); eauto; done.
  - apply candidate_parts in H1 as (_ & H1 & _).
    apply candidate_parts in H2 as (_ & H2 & _).
    destruct tok1 as [|c1 t1]; [discriminate|].
    destruct tok2 as [|c2 t2]; [discriminate|].
    injection E as -> _. simpl in H1, H2.
    unfold snake_token in H2. unfold pascal_token in H1.
    rewrite <- andb_assoc in H1, H2.
    apply andb_prop in H1 as [H1 _]. apply andb_prop in H2 as [H2 _].
    char_arith.
Qed.

Lemma candidate_of_one_rule_witness :
  let t := of_string " foo_bar() x" in
  starts_candidate CallLike t
  /\ (forall r, starts_candidate r t -> r = CallLike).
Proof.
  intros t.
  assert (H : starts_candidate CallLike t).
  { exists 32, (of_string "foo_bar()"), 32, (of_string "x").
    split; reflexivity. }
  split; [exact H|].
  intros r Hr. exact (candidate_of_one_rule r CallLike t Hr H).
Defined.

(** ** What [fix_doc_line] keeps of a line *)

Lemma ticked_startswith r s s' p :
  ticked r s s' ->
  forallb (fun c => negb (isspace c)) p = true ->
  startswith s' p = startswith s p.
Proof.
  intros H. revert p.
  induction H as [|c s s' _ IH|w tok b s s' Hc _ _]; intros p Hp.
  - reflexivity.
  - destruct p as [|a p]; [reflexivity|]. simpl in *.
    apply andb_prop in Hp as [_ Hp]. rewrite (IH _ Hp). reflexivity.
  - destruct p as [|a p]; [reflexivity|]. simpl in *.
    apply andb_prop in Hp as [Ha _]. apply negb_true_iff in Ha.
    apply candidate_parts in Hc as (Hw & _ & _).
    destruct (w =? a) eqn:E; [|reflexivity].
    apply N.eqb_eq in E. congruence.
Qed.

Lemma rule_char_not_slash r c : rule_char r c = true -> (c =? 47) = false.
Proof. destruct r; intros H; char_arith. Qed.

Lemma lstrip_cons c s :
  lstrip (c :: s) = if isspace c then lstrip s else c :: s.
Proof. reflexivity. Qed.

Lemma startswith_cons c s a p :
  startswith (c :: s) (a :: p) = (c =? a) && startswith s p.
Proof. reflexivity. Qed.

(** A pass changes nothing of what the guard of [fix_doc_line] looks at. *)
Lemma ticked_is_doc_line r s s' :
  ticked r s s' -> is_doc_line s' = is_doc_line s.
Proof.
  unfold is_doc_line. change (of_string "///") with [47; 47; 47].
  induction 1 as [|c s s' Ht IH|w tok b s s' Hc Ht IH]; [reflexivity| |].
  - rewrite !lstrip_cons. destruct (isspace c) eqn:Ec; [exact IH|].
    apply (ticked_startswith r (c :: s) (c :: s')); [|reflexivity].
    constructor. exact Ht.
  - destruct (candidate_parts _ _ _ _ Hc) as (Hw & Htok & _).
    apply rule_token_chars in Htok as [Hne Htok].
    destruct tok as [|y tok]; [done|]. simpl in Htok.
    apply andb_prop in Htok as [Hy _].
    rewrite !lstrip_cons, Hw. simpl app.
    rewrite !lstrip_cons, (rule_char_not_space _ _ Hy).
    change (isspace btick) with false. cbv iota.
    rewrite !startswith_cons, (rule_char_not_slash _ _ Hy). reflexivity.
Qed.

(** X3.  [fix_doc_line] keeps a documentation line a documentation line,
    and any other line is not made one: the line it returns passes the
    guard exactly when its input does. *)
Theorem doc_line_status_kept :
  forall line,
    startswith (lstrip (fix_doc_line line)) (of_string "///")
    = startswith (lstrip line) (of_string "///").
Proof.
  intros line.
  destruct (fix_doc_line_passes line) as (s1 & s2 & H1 & H2 & H3).
  change (is_doc_line (fix_doc_line line) = is_doc_line line).
  rewrite (ticked_is_doc_line _ _ _ H3), (ticked_is_doc_line _ _ _ H2).
  apply (ticked_is_doc_line _ _ _ H1).
Qed.

Lemma count_btick_free (u : str) :
  btick ∉ u -> count_occ N.eq_dec u btick = 0%nat.
Proof.
  intros H. apply count_occ_not_In. intros Hin.
  apply H, list_elem_of_In, Hin.
Qed.

(** A pass adds backticks two by two. *)
Lemma ticked_pairs r s s' :
  ticked r s s' ->
  exists k,
    length s' = (length s + 2 * k)%nat
    /\ count_occ N.eq_dec s' btick
       = (count_occ N.eq_dec s btick + 2 * k)%nat.
Proof.
  induction 1 as [|c s s' _ (k & IH1 & IH2)|w tok b s s' Hc _ (k & IH1 & IH2)].
  - exists 0%nat. auto.
  - exists k. split; [simpl; lia|].
    destruct (N.eq_dec c btick) as [->|Hne].
    + rewrite !count_occ_cons_eq by reflexivity. lia.
    + rewrite !count_occ_cons_neq by assumption. exact IH2.
  - exists (S k).
    destruct (candidate_no_btick _ _ _ _ Hc) as [Hnb Hw].
    apply not_elem_of_app in Hnb as [Htok Hb].
    rewrite not_elem_of_cons in Hb. destruct Hb as [Hb _].
    split.
    + simpl. rewrite !length_app. simpl. lia.
    + rewrite (count_occ_cons_neq _ _ Hw).
      rewrite count_occ_cons_eq by reflexivity.
      rewrite (count_occ_cons_neq _ _ Hw).
      rewrite !count_occ_app, (count_btick_free _ Htok).
      rewrite count_occ_cons_eq by reflexivity.
      rewrite !count_occ_cons_neq by congruence. lia.
Qed.

Lemma ins_same_length s s' : ins s s' -> length s' = length s -> s' = s.
Proof.
  assert (Hle : forall a b, ins a b -> (length a <= length b)%nat).
  { induction 1; simpl; lia. }
  induction 1 as [|c s s' Hi IH|s s' Hi _]; simpl; intros E.
  - reflexivity.
  - f_equal. apply IH. lia.
  - apply Hle in Hi. lia.
Qed.

(** X4.  [fix_doc_line] adds backticks in pairs and nothing else: the line
    grows by an even number of characters, all of them backticks, and it is
    changed exactly when it grows. *)
Theorem backticks_added_in_pairs :
  forall line,
    exists k,
      length (fix_doc_line line) = (length line + 2 * k)%nat
      /\ count_occ N.eq_dec (fix_doc_line line) btick
         = (count_occ N.eq_dec line btick + 2 * k)%nat
      /\ (k = 0%nat <-> fix_doc_line line = line).
Proof.
  intros line.
  destruct (fix_doc_line_passes line) as (s1 & s2 & H1 & H2 & H3).
  destruct (ticked_pairs _ _ _ H1) as (k1 & L1 & C1).
  destruct (ticked_pairs _ _ _ H2) as (k2 & L2 & C2).
  destruct (ticked_pairs _ _ _ H3) as (k3 & L3 & C3).
  exists (k1 + k2 + k3)%nat. split; [lia|]. split; [lia|]. split.
  - intros Hk. apply ins_same_length; [apply fix_doc_line_ins|lia].
  - intros E. rewrite E in L3. lia.
Qed.

Lemma ticked_head r s s' : ticked r s s' -> head s' = head s.
Proof. destruct 1; reflexivity. Qed.

Lemma tick_pairs_cons a s :
  tick_pairs (a :: s)
  = Nat.add
      (if (a =? btick) && (match head s with
                           | Some b => b =? btick
                           | None => false
                           end)
       then 1%nat else 0%nat)
      (tick_pairs s).
Proof.
  destruct s as [|b s]; [|reflexivity].
  simpl. rewrite andb_false_r. reflexivity.
Qed.

Lemma tick_pairs_free u s :
  btick ∉ u -> tick_pairs (u ++ s) = tick_pairs s.
Proof.
  induction u as [|a u IH]; [reflexivity|].
  rewrite not_elem_of_cons. intros [Ha Hu]. simpl app.
  rewrite tick_pairs_cons, (IH Hu).
  apply N.eqb_neq in Ha. rewrite N.eqb_sym in Ha. rewrite Ha. reflexivity.
Qed.

Lemma ticked_tick_pairs r s s' :
  ticked r s s' -> tick_pairs s' = tick_pairs s.
Proof.
  induction 1 as [|c s s' Ht IH|w tok b s s' Hc Ht IH]; [reflexivity| |].
  - rewrite !tick_pairs_cons, IH, (ticked_head _ _ _ Ht). reflexivity.
  - destruct (candidate_no_btick _ _ _ _ Hc) as [Hnb Hw].
    apply not_elem_of_app in Hnb as [Htok Hb].
    rewrite not_elem_of_cons in Hb. destruct Hb as [Hb _].
    destruct (candidate_parts _ _ _ _ Hc) as (_ & Hne & _).
    apply rule_token_chars in Hne as [Hne _].
    assert (Ew : (w =? btick) = false) by (apply N.eqb_neq; exact Hw).
    assert (Eb : (b =? btick) = false) by (apply N.eqb_neq; congruence).
    rewrite (tick_pairs_cons w (tok ++ b :: s)), Ew.
    rewrite (tick_pairs_cons w (btick :: tok ++ btick :: b :: s')), Ew.
    simpl andb. cbv iota.
    rewrite (tick_pairs_free tok (b :: s) Htok).
    rewrite (tick_pairs_cons b s), Eb. simpl andb. cbv iota.
    rewrite (tick_pairs_cons btick (tok ++ btick :: b :: s')).
    destruct tok as [|y tok]; [done|].
    apply not_elem_of_cons in Htok as [Hy Htok'].
    assert (Ey : (y =? btick) = false) by (apply N.eqb_neq; congruence).
    change (head ((y :: tok) ++ btick :: b :: s')) with (Some y).
    cbv iota. rewrite Ey, andb_false_r.
    rewrite (tick_pairs_free (y :: tok) (btick :: b :: s')).
    + rewrite (tick_pairs_cons btick (b :: s')).
      change (head (b :: s')) with (Some b). cbv iota.
      rewrite Eb, andb_false_r.
      rewrite (tick_pairs_cons b s'), Eb. simpl andb. cbv iota.
      simpl. exact IH.
    + apply not_elem_of_cons. split; [congruence|exact Htok'].
Qed.

(** X5.  [fix_doc_line] never puts a backtick next to a backtick: the line
    it returns has as many places where two backticks stand side by side
    as its input, so none when the input has none. *)
Theorem no_adjacent_backticks_added :
  forall line, tick_pairs (fix_doc_line line) = tick_pairs line.
Proof.
  intros line.
  destruct (fix_doc_line_passes line) as (s1 & s2 & H1 & H2 & H3).
  rewrite (ticked_tick_pairs _ _ _ H3), (ticked_tick_pairs _ _ _ H2).
  apply (ticked_tick_pairs _ _ _ H1).
Qed.

(** ** Text at the end of a line *)

(** Characters that are no whitespace start no match. *)
Lemma re_sub_no_space r u rest :
  forallb (fun c => negb (isspace c)) u = true ->
  re_sub (rule_pattern r) wrap_repl (u ++ rest)
  = u ++ re_sub (rule_pattern r) wrap_repl rest.
Proof.
  induction u as [|c u IH]; [reflexivity|].
  intros H. simpl in H. apply andb_prop in H as [Hc H].
  simpl app. rewrite re_sub_copy, (IH H); [reflexivity|].
  intros Hs. apply starts_candidate_head in Hs as (w & y & t & E & Hw & _).
  injection E as -> _. rewrite Hw in Hc. discriminate.
Qed.

(** Text without whitespace and without boundary characters at the end of
    the subject takes no part in a substitution. *)
Lemma re_sub_trailing r u :
  forallb (fun c => negb (isspace c) && negb (rule_boundary r c)) u = true ->
  forall pre,
    re_sub (rule_pattern r) wrap_repl (pre ++ u)
    = re_sub (rule_pattern r) wrap_repl pre ++ u.
Proof.
  intros Hu pre.
  assert (Hbd : forall x, x ∈ u -> rule_boundary r x = false).
  { intros x Hx. pose proof (forallb_elem _ _ _ Hu Hx) as H.
    apply andb_prop in H as [_ H]. apply negb_true_iff, H. }
  induction pre as [|c s Hc IH|w tok b rest Hc IH] using (scan_ind r).
  - rewrite re_sub_nil. simpl.
    rewrite <- (app_nil_r u) at 1. rewrite re_sub_no_space.
    + rewrite re_sub_nil, app_nil_r. reflexivity.
    + revert Hu. apply forallb_impl. intros x Hx.
      apply andb_prop in Hx as [Hx _]. exact Hx.
  - simpl app. rewrite !re_sub_copy, IH; [reflexivity|exact Hc|].
    intros (w & tok & b & rest & E & Hcand). injection E as -> E.
    destruct (candidate_parts _ _ _ _ Hcand) as (_ & _ & Hb).
    apply app_eq_app in E as [l [[-> E]|[-> E]]].
    + destruct l as [|x l].
      * simpl in E. rewrite (Hbd b) in Hb; [discriminate|].
        rewrite <- E. left.
      * simpl in E. injection E as <- _. apply Hc.
        exists w, tok, b, l. auto.
    + rewrite (Hbd b) in Hb; [discriminate|].
      rewrite E. apply elem_of_app. right. left.
  - replace ((w :: tok ++ b :: rest) ++ u) with (w :: tok ++ b :: rest ++ u)
      by (simpl; rewrite <- app_assoc; reflexivity).
    rewrite !(re_sub_match _ _ _ _ _ Hc), IH.
    simpl. rewrite <- app_assoc. reflexivity.
Qed.

Lemma startswith_app s p u :
  startswith s p = true -> startswith (s ++ u) p = true.
Proof.
  revert s. induction p as [|a p IH]; intros s H.
  - destruct s; simpl; [destruct u|]; reflexivity.
  - destruct s as [|c s]; [simpl in H; discriminate H|].
    simpl in *. apply andb_prop in H as [H1 H2].
    rewrite H1, (IH _ H2). reflexivity.
Qed.

Lemma is_doc_line_app pre u :
  is_doc_line pre = true -> is_doc_line (pre ++ u) = true.
Proof.
  unfold is_doc_line. change (of_string "///") with [47; 47; 47].
  induction pre as [|c pre IH]; [discriminate|].
  simpl app. rewrite !lstrip_cons. destruct (isspace c); [exact IH|].
  apply (startswith_app (c :: pre)).
Qed.

(** X6.  Text at the end of a documentation line that has no whitespace and
    none of [. , ; ) ]] in it is returned as it is and changes nothing
    before it: an identifier that ends the line with nothing behind it, as
    in a last line without line terminator, is never wrapped. *)
Theorem unbounded_end_of_line_copied :
  forall pre u,
    startswith (lstrip pre) (of_string "///") = true ->
    forallb (fun c => negb (snake_boundary c)) u = true ->
    fix_doc_line (pre ++ u) = fix_doc_line pre ++ u.
Proof.
  intros pre u Hd Hu.
  assert (H : forall r,
             forallb (fun c => negb (isspace c) && negb (rule_boundary r c)) u
             = true).
  { intros r. revert Hu. apply forallb_impl. intros x Hx.
    apply negb_true_iff in Hx. apply andb_true_intro.
    split; apply negb_true_iff; destruct r; char_arith. }
  rewrite !fix_doc_line_unfold, (is_doc_line_app _ u Hd).
  change (is_doc_line pre) with (startswith (lstrip pre) (of_string "///")).
  rewrite Hd. unfold three_passes.
  rewrite (re_sub_trailing CallLike u (H _)).
  rewrite (re_sub_trailing SnakeCase u (H _)).
  apply (re_sub_trailing PascalCase u (H _)).
Qed.

Lemma unbounded_end_of_line_copied_witness :
  let pre := of_string "/// see my_fn and " in
  let u := of_string "foo_bar" in
  startswith (lstrip pre) (of_string "///") = true
  /\ forallb (fun c => negb (snake_boundary c)) u = true
  /\ fix_doc_line (pre ++ u) = fix_doc_line pre ++ u.
Proof.
  intros pre u.
  assert (H1 : startswith (lstrip pre) (of_string "///") = true)
    by reflexivity.
  assert (H2 : forallb (fun c => negb (snake_boundary c)) u = true)
    by reflexivity.
  split; [exact H1|]. split; [exact H2|].
  exact (unbounded_end_of_line_copied pre u H1 H2).
Defined.

(** ** The run over the files *)

(** One turn of the loop over the files, from the content of the file. *)
Lemma process_file_result linesep w file_path content :
  files w !! file_path = Some content ->
  process_file linesep w file_path
  = Some {| files := <[file_path := file_after linesep content]> (files w);
            trace := trace w ++ file_events linesep file_path content;
            total_changes :=
              (total_changes w + changed_count (file_lines content))%nat |}.
Proof.
  intros H. rewrite (process_file_spec _ _ _ _ H). cbv zeta.
  unfold file_after, file_events, file_written, file_lines.
  destruct (0 <? changed_count _)%nat eqn:E; [reflexivity|].
  apply Nat.ltb_ge in E.
  replace (changed_count (readlines (universal_newlines content)))
    with 0%nat by lia.
  rewrite (insert_id _ _ _ H), app_nil_r, Nat.add_0_r.
  destruct w. reflexivity.
Qed.

Lemma process_file_none linesep w file_path :
  process_file linesep w file_path = None <-> files w !! file_path = None.
Proof.
  split.
  - intros H. destruct (files w !! file_path) eqn:E; [|reflexivity].
    rewrite (process_file_result _ _ _ _ E) in H. discriminate.
  - intros H. unfold process_file. rewrite H. reflexivity.
Qed.








(** ** A file before and after *)

Lemma ins_concat_fix lines :
  ins (concat lines) (concat (map fix_doc_line lines)).
Proof.
  induction lines as [|l lines IH]; [constructor|].
  simpl. apply ins_app; [apply fix_doc_line_ins|exact IH].
Qed.

(** X9.  Where [os.linesep] is LF, a file without CR differs after its turn
    of the loop from what it was by backticks only: its new content is the
    old one with backticks put in, and the two are equal once the backticks
    are left out. *)
Theorem file_changes_by_backticks_only :
  forall w file_path content w',
    files w !! file_path = Some content ->
    CR ∉ content ->
    process_file posix_linesep w file_path = Some w' ->
    exists after,
      files w' !! file_path = Some after
      /\ ins content after
      /\ filter (fun c => c <> btick) after
         = filter (fun c => c <> btick) content.
Proof.
  intros w p content w' Hf Hcr Hp.
  rewrite (process_file_result _ _ _ _ Hf) in Hp. injection Hp as <-.
  exists (file_after posix_linesep content). simpl.
  split; [apply lookup_insert_eq|].
  assert (Hins : ins content (file_after posix_linesep content)).
  { unfold file_after, file_written, file_lines.
    destruct (0 <? _)%nat; [|apply ins_refl].
    rewrite write_translate_posix, (universal_newlines_id _ Hcr).
    rewrite <- (concat_readlines content) at 1. apply ins_concat_fix. }
  split; [exact Hins|]. apply ins_filter, Hins.
Qed.

Lemma file_changes_by_backticks_only_witness :
  let content := of_string "/// Call foo() now" ++ [LF] in
  let w := {| files := {[ "a.rs"%string := content ]};
              trace := []; total_changes := 0 |} in
  files w !! "a.rs"%string = Some content
  /\ (CR ∉ content)
  /\ exists w' after,
       process_file posix_linesep w "a.rs" = Some w'
       /\ files w' !! "a.rs"%string = Some after
       /\ filter (fun c => c <> btick) after
          = filter (fun c => c <> btick) content.
Proof.
  intros content w.
  assert (H1 : files w !! "a.rs"%string = Some content) by reflexivity.
  assert (H2 : CR ∉ content).
  { apply (bool_decide_unpack _). vm_compute. exact I. }
  split; [exact H1|]. split; [exact H2|].
  destruct (process_file posix_linesep w "a.rs") as [w'|] eqn:Hp;
    [|vm_compute in Hp; discriminate].
  destruct (file_changes_by_backticks_only w "a.rs" content w' H1 H2 Hp)
    as (after & Ha & _ & Hfil).
  exists w', after. split; [reflexivity|]. split; [exact Ha|exact Hfil].
Defined.

(** The lines of a written text, read again, are the images of the lines
    read before. *)
Lemma file_lines_written linesep content :
  linesep = posix_linesep \/ linesep = windows_linesep ->
  file_lines (file_written linesep content)
  = map fix_doc_line (file_lines content).
Proof.
  intros Hsep. unfold file_lines, file_written.
  assert (Hcr : CR ∉ concat (map fix_doc_line
                               (readlines (universal_newlines content)))).
  { apply fixed_text_no_cr, universal_newlines_no_cr. }
  replace (universal_newlines (write_translate linesep _))
    with (concat (map fix_doc_line
                    (readlines (universal_newlines content)))).
  - apply readlines_concat, lines_ok_fix, readlines_ok.
  - destruct Hsep as [->| ->].
    + rewrite write_translate_posix. symmetry.
      apply universal_newlines_id, Hcr.
    + symmetry. apply write_translate_windows, Hcr.
Qed.

Lemma process_file_unchanged linesep w file_path content :
  files w !! file_path = Some content ->
  changed_count (file_lines content) = 0%nat ->
  process_file linesep w file_path = Some w.
Proof.
  intros Hf Hn. rewrite (process_file_spec _ _ _ _ Hf). cbv zeta.
  unfold file_lines in Hn. rewrite Hn. reflexivity.
Qed.

Lemma process_file_changed linesep w file_path content w' :
  files w !! file_path = Some content ->
  changed_count (file_lines content) <> 0%nat ->
  process_file linesep w file_path = Some w' ->
  files w' !! file_path = Some (file_written linesep content).
Proof.
  intros Hf Hn Hp. rewrite (process_file_result _ _ _ _ Hf) in Hp.
  injection Hp as <-. simpl. rewrite lookup_insert_eq. f_equal.
  unfold file_after. destruct (0 <? _)%nat eqn:E; [reflexivity|].
  apply Nat.ltb_ge in E. lia.
Qed.

(** X10.  Three runs over a file: the third leaves the files, the events
    and the total as the second left them, whatever the first two did. *)
Theorem third_run_leaves_file :
  forall linesep w file_path w1 w2 w3,
    linesep = posix_linesep \/ linesep = windows_linesep ->
    process_file linesep w file_path = Some w1 ->
    process_file linesep w1 file_path = Some w2 ->
    process_file linesep w2 file_path = Some w3 ->
    w3 = w2.
Proof.
  intros linesep w p w1 w2 w3 Hsep H1 H2 H3.
  destruct (files w !! p) as [c0|] eqn:E0;
    [|apply (proj2 (process_file_none linesep w p)) in E0; congruence].
  destruct (decide (changed_count (file_lines c0) = 0%nat)) as [Hn0|Hn0].
  { pose proof (process_file_unchanged linesep _ _ _ E0 Hn0) as Hu.
    assert (w1 = w) by congruence. subst w1.
    assert (w2 = w) by congruence. subst w2. congruence. }
  pose proof (process_file_changed _ _ _ _ _ E0 Hn0 H1) as E1.
  set (c1 := file_written linesep c0) in *.
  destruct (decide (changed_count (file_lines c1) = 0%nat)) as [Hn1|Hn1].
  { pose proof (process_file_unchanged linesep _ _ _ E1 Hn1) as Hu.
    assert (w2 = w1) by congruence. subst w2. congruence. }
  pose proof (process_file_changed _ _ _ _ _ E1 Hn1 H2) as E2.
  assert (Hn2 : changed_count (file_lines (file_written linesep c1))
                = 0%nat).
  { unfold c1. rewrite !(file_lines_written _ _ Hsep).
    apply changed_count_zero. intros l Hl.
    apply list_elem_of_fmap in Hl as (l1 & -> & Hl).
    apply list_elem_of_fmap in Hl as (l0 & -> & _).
    apply fix_doc_line_third. }
  rewrite (process_file_unchanged _ _ _ _ E2 Hn2) in H3. congruence.
Qed.

Lemma third_run_leaves_file_witness :
  let c0 := of_string "/// a foo_bar baz_qux." ++ [LF] in
  let c1 := of_string "/// a `foo_bar` baz_qux." ++ [LF] in
  let c2 := of_string "/// a `foo_bar` `baz_qux`." ++ [LF] in
  let w := {| files := {[ "a.rs"%string := c0 ]};
              trace := []; total_changes := 0 |} in
  let w1 := {| files := {[ "a.rs"%string := c1 ]};
               trace := [EWrite "a.rs" c1; EPrint (report_line "a.rs" 1)];
               total_changes := 1 |} in
  let w2 := {| files := {[ "a.rs"%string := c2 ]};
               trace := [EWrite "a.rs" c1; EPrint (report_line "a.rs" 1);
                         EWrite "a.rs" c2; EPrint (report_line "a.rs" 1)];
               total_changes := 2 |} in
  (posix_linesep = posix_linesep \/ posix_linesep = windows_linesep)
  /\ process_file posix_linesep w "a.rs" = Some w1
  /\ process_file posix_linesep w1 "a.rs" = Some w2
  /\ process_file posix_linesep w2 "a.rs" = Some w2.
Proof.
  intros c0 c1 c2 w w1 w2.
  assert (H1 : process_file posix_linesep w "a.rs" = Some w1)
    by (vm_compute; reflexivity).
  assert (H2 : process_file posix_linesep w1 "a.rs" = Some w2)
    by (vm_compute; reflexivity).
  split; [left; reflexivity|]. split; [exact H1|]. split; [exact H2|].
  destruct (process_file posix_linesep w2 "a.rs") as [w3|] eqn:H3;
    [|vm_compute in H3; discriminate].
  f_equal.
  exact (third_run_leaves_file posix_linesep w "a.rs" w1 w2 w3
           (or_introl eq_refl) H1 H2 H3).
Defined.

(** ** Lines without a place to start a match *)

Lemma starts_candidate_ident r t :
  starts_candidate r t ->
  exists w y t', t = w :: y :: t' /\ isspace w = true
                 /\ ident_start y = true.
Proof.
  intros (w & tok & b & rest & -> & Hc).
  apply candidate_parts in Hc as (Hw & Htok & _).
  destruct tok as [|y tok]; [destruct r; discriminate|].
  exists w, y, (tok ++ b :: rest). split; [reflexivity|].
  split; [exact Hw|].
  destruct r; simpl in Htok.
  - apply andb_prop in Htok as [Hy _]. exact Hy.
  - unfold snake_token in Htok. rewrite <- andb_assoc in Htok.
    apply andb_prop in Htok as [Hy _]. char_arith.
  - unfold pascal_token in Htok. rewrite <- andb_assoc in Htok.
    apply andb_prop in Htok as [Hy _]. char_arith.
Qed.

(** X11.  A line in which no whitespace character stands right before an
    ASCII letter or an underscore is returned as it is: no rule has a place
    to start a match. *)
Theorem no_word_after_whitespace_unchanged :
  forall line,
    (forall pre w y post,
        line = pre ++ w :: y :: post ->
        isspace w = true -> ident_start y = false) ->
    fix_doc_line line = line.
Proof.
  intros line H. rewrite fix_doc_line_unfold.
  destruct (is_doc_line line); [|reflexivity].
  apply three_passes_fixed. intros r pre t -> Ht.
  apply starts_candidate_ident in Ht as (w & y & t' & -> & Hw & Hy).
  rewrite (H pre w y t' eq_refl Hw) in Hy. discriminate.
Qed.

Lemma no_word_after_whitespace_unchanged_witness :
  let line := of_string "///foo_bar(x) -> 42" in
  (forall pre w y post,
      line = pre ++ w :: y :: post ->
      isspace w = true -> ident_start y = false)
  /\ fix_doc_line line = line.
Proof.
  intros line.
  assert (H : forall pre w y post,
             line = pre ++ w :: y :: post ->
             isspace w = true -> ident_start y = false).
  { intros pre w y post E Hw. unfold line in E. simpl in E.
    do 18 (destruct pre as [|? pre]; simpl in E;
           [injection E as <- <- _; first [discriminate Hw|reflexivity]|
            injection E as _ E]).
    destruct pre as [|? pre]; simpl in E; [discriminate E|].
    injection E as _ E. destruct pre; discriminate E. }
  split; [exact H|]. exact (no_word_after_whitespace_unchanged line H).
Defined.
